(** * Chess rules oracle: a shallow embedding of [square.py] and [game_rules.py]

    The development follows the Python sources function by function.
    Python integers are unbounded, hence [Z].  Python lists are [list]s and
    [x in l] is a boolean membership test through [Square.__eq__].
    Exceptions and the unbounded [while True] loop of the ray caster are made
    explicit by the [outcome] monad below. *)

From Stdlib Require Import ZArith List Bool Lia.
Import ListNotations.
Local Open Scope Z_scope.

Set Implicit Arguments.

(* ------------------------------------------------------------------ *)
(** ** Outcomes of a Python call *)

(** The exceptions that the modelled code can raise: [ValueError] is the
    explicit [raise ValueError('Board has no king')] of [is_check];
    [AttributeError] is what Python raises on [piece.type] / [piece.color]
    when [board[square]] evaluated to [None]. *)
Inductive exn : Type :=
| ValueError
| AttributeError.

(** A call returns a value, raises, or never returns. *)
Inductive outcome (A : Type) : Type :=
| Ok (a : A)
| Raise (e : exn)
| Diverge.

Arguments Ok {A} a.
Arguments Raise {A} e.
Arguments Diverge {A}.

Definition bind {A B : Type} (m : outcome A) (k : A -> outcome B) : outcome B :=
  match m with
  | Ok a => k a
  | Raise e => Raise e
  | Diverge => Diverge
  end.

Declare Scope outcome_scope.
Delimit Scope outcome_scope with outcome.
Notation "x <- m ;; k" := (bind m (fun x => k))
  (at level 61, m at next level, right associativity) : outcome_scope.
Local Open Scope outcome_scope.

(** [for x in xs: acc.extend(f(x))], the accumulation pattern used by every
    generator of the module; the first failing call aborts the loop. *)
Fixpoint extend_each {A B : Type} (f : A -> outcome (list B)) (xs : list A)
  : outcome (list B) :=
  match xs with
  | [] => Ok []
  | x :: xs' =>
      ys <- f x ;;
      rest <- extend_each f xs' ;;
      Ok (ys ++ rest)
  end.

(** [for x in xs: if keep(x): acc.append(x)] with a fallible test. *)
Fixpoint filter_each {A : Type} (keep : A -> outcome bool) (xs : list A)
  : outcome (list A) :=
  match xs with
  | [] => Ok []
  | x :: xs' =>
      k <- keep x ;;
      rest <- filter_each keep xs' ;;
      Ok (if k then x :: rest else rest)
  end.

(* ------------------------------------------------------------------ *)
(** ** square.py *)

Record Square : Type := mkSquare { row : Z; column : Z }.

(** [Square.__eq__] *)
Definition square_eqb (a b : Square) : bool :=
  (row a =? row b) && (column a =? column b).

(** [Square.is_valid] *)
Definition is_valid (s : Square) : bool :=
  (0 <=? row s) && (row s <? 8) && (0 <=? column s) && (column s <? 8).

(** [square in squares] on a Python list. *)
Definition mem (s : Square) (l : list Square) : bool :=
  existsb (square_eqb s) l.

(* ------------------------------------------------------------------ *)
(** ** Value types imported by game_rules.py *)

(** Modelled from the spec: the enum [PieceColor] of piece.py is missing;
    PieceColor is {WHITE, BLACK}. *)
Inductive PieceColor : Type := WHITE | BLACK.

(** Modelled from the spec: [PieceColor.opposing_color] of piece.py is
    missing; it maps WHITE to BLACK and BLACK to WHITE. *)
Definition opposing_color (c : PieceColor) : PieceColor :=
  match c with
  | WHITE => BLACK
  | BLACK => WHITE
  end.

(** Modelled from the spec: the enum [PieceType] of piece.py is missing. *)
Inductive PieceType : Type := PAWN | KNIGHT | BISHOP | ROOK | QUEEN | KING.

(** Modelled from the spec: the class [Piece] of piece.py is missing; an
    immutable (color, type) pair. *)
Record Piece : Type := mkPiece { color : PieceColor; type : PieceType }.

(** Modelled from the spec: the enum [MoveType] of move.py is missing. *)
Inductive MoveType : Type :=
| ORDINARY
| PAWN_PROMOTION
| DOUBLE_PAWN_PUSH
| SHORT_CASTLE
| LONG_CASTLE.

(** Modelled from the spec: the class [Move] of move.py is missing; a triple
    (start, end, type) whose type defaults to ORDINARY. *)
Record Move : Type :=
  mkMove { start : Square; end_ : Square; move_type : MoveType }.

(** [Move(start, end)] with the default move type. *)
Definition Move2 (s e : Square) : Move := mkMove s e ORDINARY.

(** [class Result(Enum)] *)
Inductive Result : Type :=
| WHITE_WIN
| BLACK_WIN
| STALEMATE
| INSUFFICIENT_MATERIAL.

Definition color_eqb (a b : PieceColor) : bool :=
  match a, b with
  | WHITE, WHITE | BLACK, BLACK => true
  | _, _ => false
  end.

Definition type_eqb (a b : PieceType) : bool :=
  match a, b with
  | PAWN, PAWN | KNIGHT, KNIGHT | BISHOP, BISHOP
  | ROOK, ROOK | QUEEN, QUEEN | KING, KING => true
  | _, _ => false
  end.

Definition is_long_castle (m : Move) : bool :=
  match move_type m with LONG_CASTLE => true | _ => false end.

Definition is_short_castle (m : Move) : bool :=
  match move_type m with SHORT_CASTLE => true | _ => false end.

(* ------------------------------------------------------------------ *)
(** ** The interfaces consumed from board.py and game.py *)

(** The queries of [Board] that [GameRules] calls.  board.py is not part of
    the sources at hand, so the class is an interface: every theorem below
    holds for each implementation. *)
Class BoardOps (Board : Type) : Type := {
  (** [board.get_squares_with_pieces(color)], a fresh list per call *)
  get_squares_with_pieces : Board -> PieceColor -> list Square;
  (** [board.get_empty_squares()] *)
  get_empty_squares : Board -> list Square;
  (** [board[square]], [None] for no piece *)
  getitem : Board -> Square -> option Piece;
  (** [Board.get_pawn_direction(color)] *)
  get_pawn_direction : PieceColor -> Z;
  (** [Board.get_pawn_starting_row(color)] *)
  get_pawn_starting_row : PieceColor -> Z;
  (** [Board.get_pawn_end_row(color)] *)
  get_pawn_end_row : PieceColor -> Z
}.

(** The one law of the board that the proofs about failures rely on: the
    squares listed for a color are those where the lookup finds a piece of
    that color. *)
Class BoardContract (Board : Type) {ops : BoardOps Board} : Prop := {
  squares_with_pieces_lookup :
    forall (b : Board) (c : PieceColor) (sq : Square),
      In sq (get_squares_with_pieces b c) <->
      exists t, getitem b sq = Some (mkPiece c t)
}.

Arguments BoardContract Board {ops}.

(** The attributes of [Game] that [GameRules] reads. *)
Record Game (Board : Type) : Type := mkGame {
  board : Board;
  turn : PieceColor;
  en_passant : option Square;
  long_castling_rights : PieceColor -> bool;
  short_castling_rights : PieceColor -> bool
}.

(** [game.simulate_move(move)]: game.py is not part of the sources at hand. *)
Class GameOps (Board : Type) : Type := {
  simulate_move : Game Board -> Move -> Board
}.

(* ------------------------------------------------------------------ *)
(** ** game_rules.py *)

(** The square [Square(start_square.row + direction[0]*steps,
    start_square.column + direction[1]*steps)] inspected at iteration
    [steps] of the ray caster. *)
Definition ray_square (direction : Z * Z) (start_square : Square) (steps : Z)
  : Square :=
  mkSquare (row start_square + fst direction * steps)
           (column start_square + snd direction * steps).

(** The body of the [while True] loop of
    [__get_ranged_piece_psuedo_legal_moves_in_direction]; [fuel] bounds the
    number of iterations and [None] means that the bound was reached. *)
Fixpoint ranged_loop (fuel : nat) (direction : Z * Z) (start_square : Square)
    (empty_squares squares_with_opponent_pieces : list Square) (steps : Z)
  : option (list Move) :=
  match fuel with
  | O => None
  | S fuel' =>
      let end_square := ray_square direction start_square steps in
      if mem end_square empty_squares then
        match ranged_loop fuel' direction start_square empty_squares
                squares_with_opponent_pieces (steps + 1) with
        | Some rest => Some (Move2 start_square end_square :: rest)
        | None => None
        end
      else if mem end_square squares_with_opponent_pieces then
        Some [Move2 start_square end_square]
      else
        Some []
  end.

(** [__get_ranged_piece_psuedo_legal_moves_in_direction].  The loop is run
    for [len(empty_squares) + 1] iterations; [ranged_loop_bound_complete]
    shows that a run that needs more never ends, so [Diverge] is exact. *)
Definition get_ranged_piece_psuedo_legal_moves_in_direction
    (direction : Z * Z) (start_square : Square)
    (empty_squares squares_with_opponent_pieces : list Square)
  : outcome (list Move) :=
  match ranged_loop (S (length empty_squares)) direction start_square
          empty_squares squares_with_opponent_pieces 1 with
  | Some moves => Ok moves
  | None => Diverge
  end.

Definition knight_moves : list (Z * Z) :=
  [(1, 2); (1, -2); (-1, 2); (-1, -2); (2, 1); (2, -1); (-2, 1); (-2, -1)].

Definition king_moves : list (Z * Z) :=
  [(1, 1); (1, 0); (1, -1); (0, 1); (0, -1); (-1, 1); (-1, 0); (-1, -1)].

Definition bishop_directions : list (Z * Z) :=
  [(1, 1); (1, -1); (-1, 1); (-1, -1)].

Definition rook_directions : list (Z * Z) :=
  [(1, 0); (-1, 0); (0, 1); (0, -1)].

(** [for direction in directions: psuedo_legal_moves.extend(...)], the loop
    of the BISHOP and ROOK cases. *)
Definition sliding_moves (directions : list (Z * Z)) (start_square : Square)
    (empty_squares squares_with_opponent_pieces : list Square)
  : outcome (list Move) :=
  extend_each
    (fun direction =>
       get_ranged_piece_psuedo_legal_moves_in_direction direction
         start_square empty_squares squares_with_opponent_pieces)
    directions.

(** The loop shared by the KNIGHT and KING cases. *)
Definition offset_moves (moves : list (Z * Z)) (start_square : Square)
    (available_squares : list Square) : list Move :=
  map (Move2 start_square)
    (filter (fun end_square => mem end_square available_squares)
       (map (fun move => mkSquare (row start_square + fst move)
                                  (column start_square + snd move)) moves)).

Section GameRules.

Context {Board : Type} {board_ops : BoardOps Board} {game_ops : GameOps Board}.

(** The PAWN case of [__get_psuedo_legal_moves_for_piece]. *)
Definition pawn_moves (piece_color : PieceColor) (start_square : Square)
    (empty_squares squares_with_opponent_pieces : list Square) : list Move :=
  let direction := get_pawn_direction piece_color in
  let one_row_forward := row start_square + direction in
  let move_type :=
    if one_row_forward =? get_pawn_end_row piece_color
    then PAWN_PROMOTION else ORDINARY in
  let capture_squares :=
    [mkSquare one_row_forward (column start_square - 1);
     mkSquare one_row_forward (column start_square + 1)] in
  let captures :=
    map (fun capture_square => mkMove start_square capture_square move_type)
      (filter (fun capture_square =>
                 mem capture_square squares_with_opponent_pieces)
         capture_squares) in
  let one_square_forward := mkSquare one_row_forward (column start_square) in
  let pushes :=
    if mem one_square_forward empty_squares then
      let starting_row := get_pawn_starting_row piece_color in
      let two_squares_forward :=
        mkSquare (one_row_forward + direction) (column start_square) in
      mkMove start_square one_square_forward move_type ::
        (if (row start_square =? starting_row)
            && mem two_squares_forward empty_squares
         then [mkMove start_square two_squares_forward DOUBLE_PAWN_PUSH]
         else [])
    else [] in
  captures ++ pushes.

(** One unfolding of [__get_psuedo_legal_moves_for_piece]; [self] stands for
    the function itself in the two recursive calls of the QUEEN case. *)
Definition psuedo_legal_moves_for_piece_body
    (self : Piece -> Square -> Board -> option Square -> outcome (list Move))
    (piece : Piece) (start_square : Square) (board : Board)
    (en_passant : option Square) : outcome (list Move) :=
  let opponent_color := opposing_color (color piece) in
  let squares_with_opponent_pieces :=
    get_squares_with_pieces board opponent_color ++
    match en_passant with
    | Some sq => [sq]
    | None => []
    end in
  let empty_squares := get_empty_squares board in
  match type piece with
  | PAWN =>
      Ok (pawn_moves (color piece) start_square empty_squares
            squares_with_opponent_pieces)
  | KNIGHT =>
      Ok (offset_moves knight_moves start_square
            (empty_squares ++ squares_with_opponent_pieces))
  | BISHOP =>
      sliding_moves bishop_directions start_square empty_squares
        squares_with_opponent_pieces
  | ROOK =>
      sliding_moves rook_directions start_square empty_squares
        squares_with_opponent_pieces
  | QUEEN =>
      as_bishop <- self (mkPiece (color piece) BISHOP) start_square board None ;;
      as_rook <- self (mkPiece (color piece) ROOK) start_square board None ;;
      Ok (as_bishop ++ as_rook)
  | KING =>
      Ok (offset_moves king_moves start_square
            (empty_squares ++ squares_with_opponent_pieces))
  end.

(** [__get_psuedo_legal_moves_for_piece].  The recursion is at most one call
    deep (a QUEEN calls itself on a BISHOP and on a ROOK, which do not
    recurse), so two unfoldings of the body are the whole function. *)
Definition get_psuedo_legal_moves_for_piece
  : Piece -> Square -> Board -> option Square -> outcome (list Move) :=
  psuedo_legal_moves_for_piece_body
    (psuedo_legal_moves_for_piece_body (fun _ _ _ _ => Diverge)).

(** [__get_psuedo_legal_moves] *)
Definition get_psuedo_legal_moves (game : Game Board) : outcome (list Move) :=
  extend_each
    (fun square =>
       match getitem (board game) square with
       | None => Raise AttributeError
       | Some piece =>
           get_psuedo_legal_moves_for_piece piece square (board game)
             (en_passant game)
       end)
    (get_squares_with_pieces (board game) (turn game)).

(** The two squares a pawn attacks, before the validity filter. *)
Definition pawn_capture_squares (c : PieceColor) (square : Square)
  : list Square :=
  let direction := get_pawn_direction c in
  [mkSquare (row square + direction) (column square - 1);
   mkSquare (row square + direction) (column square + 1)].

(** What one iteration of the loop of [__get_attacked_squares] appends. *)
Definition attacked_from (board : Board) (square : Square)
  : outcome (list Square) :=
  match getitem board square with
  | None => Raise AttributeError
  | Some piece =>
      match type piece with
      | PAWN =>
          Ok (filter is_valid (pawn_capture_squares (color piece) square))
      | _ =>
          moves <- get_psuedo_legal_moves_for_piece piece square board None ;;
          Ok (map end_ moves)
      end
  end.

(** [__get_attacked_squares] *)
Definition get_attacked_squares (board : Board) (turn : PieceColor)
  : outcome (list Square) :=
  extend_each (attacked_from board) (get_squares_with_pieces board turn).

(** The king-locating loop of [is_check]: the last square that holds a KING
    wins. *)
Definition find_king (board : Board) (king_color : PieceColor)
  : option Square :=
  fold_left
    (fun king_square square =>
       match getitem board square with
       | Some piece =>
           if type_eqb (type piece) KING then Some square else king_square
       | None => king_square
       end)
    (get_squares_with_pieces board king_color) None.

(** [GameRules.is_check] *)
Definition is_check (board : Board) (king_color : PieceColor) : outcome bool :=
  let opponent_color := opposing_color king_color in
  attacked_squares <- get_attacked_squares board opponent_color ;;
  match find_king board king_color with
  | None => Raise ValueError
  | Some king_square => Ok (mem king_square attacked_squares)
  end.

Definition long_castling_squares (starting_row : Z) : list Square :=
  [mkSquare starting_row 1; mkSquare starting_row 2; mkSquare starting_row 3].

Definition short_castling_squares (starting_row : Z) : list Square :=
  [mkSquare starting_row 5; mkSquare starting_row 6].

Definition long_castling_moves (starting_row : Z) : list Move :=
  [mkMove (mkSquare starting_row 4) (mkSquare starting_row 0) LONG_CASTLE;
   mkMove (mkSquare starting_row 4) (mkSquare starting_row 1) LONG_CASTLE;
   mkMove (mkSquare starting_row 4) (mkSquare starting_row 2) LONG_CASTLE].

Definition short_castling_moves (starting_row : Z) : list Move :=
  [mkMove (mkSquare starting_row 4) (mkSquare starting_row 6) SHORT_CASTLE;
   mkMove (mkSquare starting_row 4) (mkSquare starting_row 7) SHORT_CASTLE].

(** The lambda [valid_castling_square] of [__get_castling_moves]. *)
Definition valid_castling_square
    (empty_squares opponent_attacked_squares : list Square) (square : Square)
  : bool :=
  mem square empty_squares && negb (mem square opponent_attacked_squares).

(** [__get_castling_moves] *)
Definition get_castling_moves (game : Game Board) : outcome (list Move) :=
  in_check <- is_check (board game) (turn game) ;;
  if in_check : bool then Ok []
  else
    let empty_squares := get_empty_squares (board game) in
    opponent_attacked_squares <-
      get_attacked_squares (board game) (opposing_color (turn game)) ;;
    let valid := valid_castling_square empty_squares opponent_attacked_squares in
    let starting_row := get_pawn_end_row (opposing_color (turn game)) in
    let long :=
      if long_castling_rights game (turn game) then
        if forallb valid (long_castling_squares starting_row)
        then long_castling_moves starting_row else []
      else [] in
    let short :=
      if short_castling_rights game (turn game) then
        if forallb valid (short_castling_squares starting_row)
        then short_castling_moves starting_row else []
      else [] in
    Ok (long ++ short).

(** [GameRules.get_legal_moves] *)
Definition get_legal_moves (game : Game Board) : outcome (list Move) :=
  psuedo_legal_moves <- get_psuedo_legal_moves game ;;
  legal_moves <-
    filter_each
      (fun move =>
         in_check <- is_check (simulate_move game move) (turn game) ;;
         Ok (negb in_check))
      psuedo_legal_moves ;;
  castling_moves <- get_castling_moves game ;;
  Ok (legal_moves ++ castling_moves).

(** [set(a) == set(b)] on lists of piece types. *)
Definition same_type_set (a b : list PieceType) : bool :=
  forallb (fun t => existsb (type_eqb t) b) a
  && forallb (fun t => existsb (type_eqb t) a) b.

(** [[piece.type for piece in pieces]]; a [None] entry raises. *)
Fixpoint types_of (pieces : list (option Piece)) : outcome (list PieceType) :=
  match pieces with
  | [] => Ok []
  | None :: _ => Raise AttributeError
  | Some piece :: rest =>
      ts <- types_of rest ;;
      Ok (type piece :: ts)
  end.

(** [__is_insufficient_material] *)
Definition is_insufficient_material (pieces : list (option Piece))
  : outcome bool :=
  if (2 <? length pieces)%nat then Ok false
  else
    piece_types <- types_of pieces ;;
    Ok (same_type_set piece_types [KING]
        || same_type_set piece_types [KING; KNIGHT]
        || same_type_set piece_types [KING; BISHOP]).

(** [[game.board[square] for square in game.board.get_squares_with_pieces(c)]] *)
Definition pieces_of (board : Board) (c : PieceColor) : list (option Piece) :=
  map (getitem board) (get_squares_with_pieces board c).

(** [GameRules.get_game_result] *)
Definition get_game_result (game : Game Board) : outcome (option Result) :=
  legal_moves <- get_legal_moves game ;;
  if (length legal_moves =? 0)%nat then
    in_check <- is_check (board game) (turn game) ;;
    if in_check : bool then
      Ok (Some (if color_eqb (turn game) BLACK then WHITE_WIN else BLACK_WIN))
    else Ok (Some STALEMATE)
  else
    let white_pieces := pieces_of (board game) WHITE in
    let black_pieces := pieces_of (board game) BLACK in
    white <- is_insufficient_material white_pieces ;;
    if white : bool then
      black <- is_insufficient_material black_pieces ;;
      if black : bool then Ok (Some INSUFFICIENT_MATERIAL) else Ok None
    else Ok None.

(* ------------------------------------------------------------------ *)
(** ** Vocabulary of the specification *)

(** The board holds a KING-typed piece of the color. *)
Definition has_king (board : Board) (c : PieceColor) : Prop :=
  exists sq, getitem board sq = Some (mkPiece c KING).

(** The back rank of the side to move, as [__get_castling_moves] computes
    it. *)
Definition back_rank (game : Game Board) : Z :=
  get_pawn_end_row (opposing_color (turn game)).

(** The castling preconditions for one side of the board: the side to move
    is not in check, the rights flag of its color is set, and each square of
    [between] is empty and not attacked by the opponent. *)
Definition castling_preconditions (game : Game Board)
    (rights : PieceColor -> bool) (between : list Square) : Prop :=
  is_check (board game) (turn game) = Ok false /\
  rights (turn game) = true /\
  exists attacked,
    get_attacked_squares (board game) (opposing_color (turn game))
      = Ok attacked /\
    forall sq, In sq between ->
      In sq (get_empty_squares (board game)) /\ ~ In sq attacked.

(** Long side: columns 1, 2 and 3 of the back rank. *)
Definition long_castling_preconditions (game : Game Board) : Prop :=
  castling_preconditions game (long_castling_rights game)
    (map (mkSquare (back_rank game)) [1; 2; 3]).

(** Short side: columns 5 and 6 of the back rank. *)
Definition short_castling_preconditions (game : Game Board) : Prop :=
  castling_preconditions game (short_castling_rights game)
    (map (mkSquare (back_rank game)) [5; 6]).

(** The types of the pieces of one color, one entry per piece. *)
Definition piece_types (board : Board) (c : PieceColor) : list PieceType :=
  flat_map (fun sq => match getitem board sq with
                      | Some p => [type p]
                      | None => []
                      end)
    (get_squares_with_pieces board c).

(** The number of pieces of one color. *)
Definition piece_count (board : Board) (c : PieceColor) : nat :=
  length (get_squares_with_pieces board c).

(** Two lists of piece types denote the same set. *)
Definition same_set (a b : list PieceType) : Prop :=
  forall t, In t a <-> In t b.

(** Insufficient material as the specification words it: at most two pieces
    whose type set is a subset of {KING}, {KING, KNIGHT} or {KING, BISHOP}. *)
Definition insufficient_material_subset (board : Board) (c : PieceColor)
  : Prop :=
  (piece_count board c <= 2)%nat /\
  (incl (piece_types board c) [KING] \/
   incl (piece_types board c) [KING; KNIGHT] \/
   incl (piece_types board c) [KING; BISHOP]).

(** Insufficient material with set equality in place of inclusion. *)
Definition insufficient_material_equal (board : Board) (c : PieceColor)
  : Prop :=
  (piece_count board c <= 2)%nat /\
  (same_set (piece_types board c) [KING] \/
   same_set (piece_types board c) [KING; KNIGHT] \/
   same_set (piece_types board c) [KING; BISHOP]).

(** How a pawn move of [pawn_moves] may look: a step onto the next row
    (straight or diagonal) tagged by that row, or a double push. *)
Definition pawn_move_tagged (c : PieceColor) (start_square : Square)
    (m : Move) : Prop :=
  start m = start_square /\
  ((row (end_ m) = row start_square + get_pawn_direction c /\
    (row (end_ m) = get_pawn_end_row c -> move_type m = PAWN_PROMOTION) /\
    (row (end_ m) <> get_pawn_end_row c -> move_type m = ORDINARY)) \/
   (end_ m = mkSquare (row start_square + get_pawn_direction c
                       + get_pawn_direction c) (column start_square) /\
    row start_square = get_pawn_starting_row c /\
    move_type m = DOUBLE_PAWN_PUSH)).

End GameRules.

(* ------------------------------------------------------------------ *)
(** ** A board and a game to run the code on *)

Module Concrete.

(** Modelled from the spec: the class [Board] of board.py is missing; a
    board is a snapshot mapping each Square to an optional Piece. *)
Definition CBoard : Type := Square -> option Piece.

Definition indices : list Z := [0; 1; 2; 3; 4; 5; 6; 7].

(** The 64 squares in sorted order. *)
Definition all_squares : list Square :=
  flat_map (fun r => map (mkSquare r) indices) indices.

(** Modelled from the spec: the indexed lookup of board.py is missing; squares
    outside the 8x8 range hold nothing. *)
Definition c_getitem (b : CBoard) (sq : Square) : option Piece :=
  if is_valid sq then b sq else None.

(** Modelled from the spec: [get_squares_with_pieces] of board.py is missing;
    the squares that hold a piece of the color, over sorted square indices. *)
Definition c_get_squares_with_pieces (b : CBoard) (c : PieceColor)
  : list Square :=
  filter (fun sq => match b sq with
                    | Some p => color_eqb (color p) c
                    | None => false
                    end) all_squares.

(** Modelled from the spec: [get_empty_squares] of board.py is missing; the
    squares of the board that hold no piece. *)
Definition c_get_empty_squares (b : CBoard) : list Square :=
  filter (fun sq => match b sq with
                    | Some _ => false
                    | None => true
                    end) all_squares.

(** Modelled from the spec: the pawn constants of board.py are missing; the
    direction is +1 or -1, the end row is the opponent's home rank.  White is
    taken to start on rows 0 and 1. *)
Definition c_pawn_direction (c : PieceColor) : Z :=
  match c with WHITE => 1 | BLACK => -1 end.

Definition c_pawn_starting_row (c : PieceColor) : Z :=
  match c with WHITE => 1 | BLACK => 6 end.

Definition c_pawn_end_row (c : PieceColor) : Z :=
  match c with WHITE => 7 | BLACK => 0 end.

#[global] Instance c_board_ops : BoardOps CBoard := {
  get_squares_with_pieces := c_get_squares_with_pieces;
  get_empty_squares := c_get_empty_squares;
  getitem := c_getitem;
  get_pawn_direction := c_pawn_direction;
  get_pawn_starting_row := c_pawn_starting_row;
  get_pawn_end_row := c_pawn_end_row
}.

(** The piece of square [source] is put on square [target], replacing what
    stood there; [source] is left empty. *)
Definition relocate (b : CBoard) (source target : Square) : CBoard :=
  fun sq =>
    if square_eqb sq target then b source
    else if square_eqb sq source then None
    else b sq.

(** Modelled from the spec: [Game.simulate_move] of game.py is missing; it
    returns a new board reflecting the move's effect.  A record of kind
    ORDINARY, PAWN_PROMOTION or DOUBLE_PAWN_PUSH is played as the
    instruction (start square, end square): the piece of the start square
    stands on the end square afterwards and the start square is empty.  A
    castling record is played by its kind, as castling is in chess: the
    piece of the start square goes to column 2 (LONG_CASTLE) or column 6
    (SHORT_CASTLE) of its row, and the piece of column 0 (column 7) of that
    row goes to column 3 (column 5), whichever landing square the record
    names.  The spec names the move kinds and is silent on how a castling
    record changes the board; nothing that is proved in this file depends
    on that case.  The choice of a promotion piece and the removal of a pawn
    taken en passant are left out. *)
Definition c_simulate_move (g : Game CBoard) (m : Move) : CBoard :=
  let r := row (start m) in
  match move_type m with
  | LONG_CASTLE =>
      relocate (relocate (board g) (start m) (mkSquare r 2))
        (mkSquare r 0) (mkSquare r 3)
  | SHORT_CASTLE =>
      relocate (relocate (board g) (start m) (mkSquare r 6))
        (mkSquare r 7) (mkSquare r 5)
  | _ => relocate (board g) (start m) (end_ m)
  end.

#[global] Instance c_game_ops : GameOps CBoard := {
  simulate_move := c_simulate_move
}.

Definition empty_board : CBoard := fun _ => None.

(** [place r c p b]: the board [b] with piece [p] on row [r], column [c]. *)
Definition place (r c : Z) (p : Piece) (b : CBoard) : CBoard :=
  fun sq => if square_eqb sq (mkSquare r c) then Some p else b sq.

(** The home square of the white king. *)
Definition e1 : Square := mkSquare 0 4.

Definition no_rights : PieceColor -> bool := fun _ => false.
Definition all_rights : PieceColor -> bool := fun _ => true.

(** White king on its home square, black king in the far corner, a black
    rook on the open a-file; White to move with the long castling flag set
    although no white rook stands in the corner. *)
Definition open_file_game : Game CBoard :=
  mkGame
    (place 0 4 (mkPiece WHITE KING)
       (place 7 7 (mkPiece BLACK KING)
          (place 7 0 (mkPiece BLACK ROOK) empty_board)))
    WHITE None all_rights no_rights.

(** A lone white king; Black has no piece at all. *)
Definition lone_king_game : Game CBoard :=
  mkGame (place 0 4 (mkPiece WHITE KING) empty_board)
    WHITE None no_rights no_rights.

(** Two kings and a white bishop. *)
Definition bishop_game : Game CBoard :=
  mkGame
    (place 0 4 (mkPiece WHITE KING)
       (place 0 2 (mkPiece WHITE BISHOP)
          (place 7 4 (mkPiece BLACK KING) empty_board)))
    WHITE None no_rights no_rights.

(** The white king stands on h3 and no rook is left, yet both castling flags
    of White are set. *)
Definition stray_king_game : Game CBoard :=
  mkGame
    (place 2 7 (mkPiece WHITE KING)
       (place 7 4 (mkPiece BLACK KING) empty_board))
    WHITE None all_rights all_rights.

(** A white pawn one step from promotion with a black knight to capture;
    the kings far away. *)
Definition promotion_game : Game CBoard :=
  mkGame
    (place 6 1 (mkPiece WHITE PAWN)
       (place 7 2 (mkPiece BLACK KNIGHT)
          (place 0 4 (mkPiece WHITE KING)
             (place 7 7 (mkPiece BLACK KING) empty_board))))
    WHITE None no_rights no_rights.

(** Black to move, stalemated: king in the corner, white queen and king
    covering its three neighbours. *)
Definition stalemate_game : Game CBoard :=
  mkGame
    (place 7 7 (mkPiece BLACK KING)
       (place 5 6 (mkPiece WHITE QUEEN)
          (place 5 5 (mkPiece WHITE KING) empty_board)))
    BLACK None no_rights no_rights.

(** Black to move, mated on the back rank by a rook; the white king takes
    the flight squares. *)
Definition mate_game : Game CBoard :=
  mkGame
    (place 7 7 (mkPiece BLACK KING)
       (place 7 0 (mkPiece WHITE ROOK)
          (place 5 7 (mkPiece WHITE KING) empty_board)))
    BLACK None no_rights no_rights.

Definition home_rank_types : list PieceType :=
  [ROOK; KNIGHT; BISHOP; QUEEN; KING; BISHOP; KNIGHT; ROOK].

(** The standard starting position, kings on column 4. *)
Definition starting_board : CBoard :=
  fun sq =>
    let home c :=
      option_map (mkPiece c)
        (nth_error home_rank_types (Z.to_nat (column sq))) in
    if row sq =? 0 then home WHITE
    else if row sq =? 1 then Some (mkPiece WHITE PAWN)
    else if row sq =? 6 then Some (mkPiece BLACK PAWN)
    else if row sq =? 7 then home BLACK
    else None.

Definition starting_game : Game CBoard :=
  mkGame starting_board WHITE None all_rights all_rights.


(** The list that [get_legal_moves] returns, [[]] when it fails. *)
Definition legal_of (g : Game CBoard) : list Move :=
  match get_legal_moves g with
  | Ok l => l
  | _ => []
  end.

(** The list that [__get_attacked_squares] returns, [[]] when it fails. *)
Definition attacked_of (b : CBoard) (c : PieceColor) : list Square :=
  match get_attacked_squares b c with
  | Ok l => l
  | _ => []
  end.

End Concrete.

(* ------------------------------------------------------------------ *)
(** ** Further vocabulary for the properties of the generators *)

(** The iteration numbers [1 .. j] of the ray caster. *)
Definition steps_upto (j : nat) : list Z := map Z.of_nat (seq 1 j).

(** The direction table a piece type slides along: the one of the BISHOP
    case, the one of the ROOK case, and both for the QUEEN, which calls the
    two cases in this order. *)
Definition sliding_directions (t : PieceType) : list (Z * Z) :=
  match t with
  | BISHOP => bishop_directions
  | ROOK => rook_directions
  | QUEEN => bishop_directions ++ rook_directions
  | _ => []
  end.

(** The type lists on which [__is_insufficient_material] answers [True]. *)
Definition insufficient_type_lists : list (list PieceType) :=
  [[KING]; [KING; KING];
   [KING; KNIGHT]; [KNIGHT; KING];
   [KING; BISHOP]; [BISHOP; KING]].

(** [Square.__hash__]: [hash((self.row, self.column))].  The built-in hash
    of a pair of integers is the parameter [tuple_hash]. *)
Definition square_hash (tuple_hash : Z * Z -> Z) (s : Square) : Z :=
  tuple_hash (row s, column s).

(** More positions to run the code on. *)
Module MoreGames.

Import Concrete.

(** The list that [__get_psuedo_legal_moves_for_piece] returns, [[]] when it
    fails. *)
Definition moves_of (p : Piece) (s : Square) (b : CBoard)
    (ep : option Square) : list Move :=
  match get_psuedo_legal_moves_for_piece p s b ep with
  | Ok l => l
  | _ => []
  end.

(** Two white kings, on a1 and e1, and a black rook on a8 that attacks the
    one on a1. *)
Definition two_kings_board : CBoard :=
  place 0 0 (mkPiece WHITE KING)
    (place 0 4 (mkPiece WHITE KING)
       (place 7 0 (mkPiece BLACK ROOK)
          (place 7 7 (mkPiece BLACK KING) empty_board))).


(** The white bishop of [bishop_game] and its square c1. *)
Definition white_bishop : Piece := mkPiece WHITE BISHOP.
Definition c1 : Square := mkSquare 0 2.

(** The white pawn of [promotion_game] and its square b7. *)
Definition white_pawn : Piece := mkPiece WHITE PAWN.
Definition b7 : Square := mkSquare 6 1.

(** The white knight of the starting position on b1. *)
Definition white_knight : Piece := mkPiece WHITE KNIGHT.
Definition b1 : Square := mkSquare 0 1.

(** A hash of coordinate pairs to run [square_hash] with. *)
Definition sample_hash (rc : Z * Z) : Z := 8 * fst rc + snd rc.

End MoreGames.

(* ------------------------------------------------------------------ *)
(** * Properties *)

(** ** Squares and membership *)

Lemma square_eqb_eq (a b : Square) : square_eqb a b = true <-> a = b.
Proof.
  destruct a as [ra ca], b as [rb cb]; unfold square_eqb; simpl.
  rewrite andb_true_iff, !Z.eqb_eq.
  split; [intros [-> ->]; reflexivity | intros E; inversion E; auto].
Qed.

Lemma square_eqb_refl (a : Square) : square_eqb a a = true.
Proof. apply square_eqb_eq; reflexivity. Qed.

Lemma mem_In (s : Square) (l : list Square) : mem s l = true <-> In s l.
Proof.
  unfold mem; rewrite existsb_exists; split.
  - intros [x [Hx E]]; apply square_eqb_eq in E; subst; assumption.
  - intros H; exists s; split; [assumption | apply square_eqb_refl].
Qed.

Lemma mem_not_In (s : Square) (l : list Square) : mem s l = false <-> ~ In s l.
Proof.
  rewrite <- mem_In; destruct (mem s l); split; congruence.
Qed.

Lemma type_eqb_eq (a b : PieceType) : type_eqb a b = true <-> a = b.
Proof. destruct a, b; simpl; split; congruence. Qed.

(** ** Inversion and totality of the loops in the [outcome] monad *)

Lemma bind_Ok {A B : Type} (m : outcome A) (k : A -> outcome B) (b : B) :
  bind m k = Ok b -> exists a, m = Ok a /\ k a = Ok b.
Proof. destruct m; simpl; intros H; try discriminate; eauto. Qed.

Ltac inv_bind H :=
  let a := fresh "v" in
  let Ha := fresh "Hv" in
  apply bind_Ok in H; destruct H as [a [Ha H]].

Lemma extend_each_In {A B : Type} (f : A -> outcome (list B)) (xs : list A)
    (l : list B) :
  extend_each f xs = Ok l ->
  forall y, In y l <-> exists x ys, In x xs /\ f x = Ok ys /\ In y ys.
Proof.
  revert l; induction xs as [| x xs IH]; simpl; intros l H y.
  - inversion H; subst; simpl; split; [tauto | intros (? & ? & [] & _)].
  - inv_bind H. inv_bind H. inversion H; subst; clear H.
    rewrite in_app_iff, (IH _ Hv0 y); split.
    + intros [Hy | (x' & ys & Hx & Hf & Hy)].
      * exists x, v; auto.
      * exists x', ys; auto.
    + intros (x' & ys & [-> | Hx] & Hf & Hy).
      * left; congruence.
      * right; eauto.
Qed.

Lemma extend_each_all_Ok {A B : Type} (f : A -> outcome (list B))
    (xs : list A) (l : list B) :
  extend_each f xs = Ok l -> forall x, In x xs -> exists ys, f x = Ok ys.
Proof.
  revert l; induction xs as [| x xs IH]; simpl; intros l H x' Hx; [tauto |].
  inv_bind H. inv_bind H. destruct Hx as [-> | Hx]; eauto.
Qed.

Lemma extend_each_total {A B : Type} (f : A -> outcome (list B)) (xs : list A) :
  (forall x, In x xs -> exists ys, f x = Ok ys) ->
  exists l, extend_each f xs = Ok l.
Proof.
  induction xs as [| x xs IH]; simpl; intros H; [eauto |].
  destruct (H x) as [ys Hys]; [auto |].
  destruct IH as [l Hl]; [intros; apply H; auto |].
  rewrite Hys, Hl; simpl; eauto.
Qed.

Lemma filter_each_In {A : Type} (keep : A -> outcome bool) (xs l : list A) :
  filter_each keep xs = Ok l ->
  forall x, In x l <-> In x xs /\ keep x = Ok true.
Proof.
  revert l; induction xs as [| x xs IH]; simpl; intros l H y.
  - inversion H; subst; simpl; tauto.
  - inv_bind H. inv_bind H. inversion H; subst; clear H.
    specialize (IH _ Hv0 y). destruct v; simpl; rewrite IH; split.
    + intros [<- | [? ?]]; auto.
    + intros [[<- | ?] ?]; auto.
    + intros [? ?]; auto.
    + intros [[<- | ?] ?]; [congruence | auto].
Qed.

Lemma filter_each_total {A : Type} (keep : A -> outcome bool) (xs : list A) :
  (forall x, In x xs -> exists k, keep x = Ok k) ->
  exists l, filter_each keep xs = Ok l.
Proof.
  induction xs as [| x xs IH]; simpl; intros H; [eauto |].
  destruct (H x) as [k Hk]; [auto |].
  destruct IH as [l Hl]; [intros; apply H; auto |].
  rewrite Hk, Hl; simpl; eauto.
Qed.

(** A loop whose calls never diverge does not diverge. *)
Lemma extend_each_halts {A B : Type} (f : A -> outcome (list B)) (xs : list A) :
  (forall x, In x xs -> f x <> Diverge) -> extend_each f xs <> Diverge.
Proof.
  induction xs as [| x xs IH]; simpl; intros H; [discriminate |].
  assert (Hx := H x (or_introl eq_refl)).
  destruct (f x); simpl; try congruence.
  assert (Hr : extend_each f xs <> Diverge) by (apply IH; intros; apply H; auto).
  destruct (extend_each f xs); simpl; congruence.
Qed.

Lemma filter_each_halts {A : Type} (keep : A -> outcome bool) (xs : list A) :
  (forall x, In x xs -> keep x <> Diverge) -> filter_each keep xs <> Diverge.
Proof.
  induction xs as [| x xs IH]; simpl; intros H; [discriminate |].
  assert (Hx := H x (or_introl eq_refl)).
  destruct (keep x); simpl; try congruence.
  assert (Hr : filter_each keep xs <> Diverge) by (apply IH; intros; apply H; auto).
  destruct (filter_each keep xs); simpl; congruence.
Qed.

(** ** The ray-casting loop *)

Lemma ray_square_inj (d : Z * Z) (s : Square) (j k : Z) :
  d <> (0, 0) -> ray_square d s j = ray_square d s k -> j = k.
Proof.
  destruct d as [dr dc]; unfold ray_square; simpl; intros Hd E.
  inversion E as [[Er Ec]].
  destruct (Z.eq_dec dr 0) as [-> | Hr].
  - destruct (Z.eq_dec dc 0) as [-> | Hc]; [congruence |].
    assert (dc * j = dc * k) by lia. nia.
  - assert (dr * j = dr * k) by lia. nia.
Qed.

Lemma ray_square_null (s : Square) (steps : Z) : ray_square (0, 0) s steps = s.
Proof.
  destruct s; unfold ray_square; simpl. rewrite !Z.add_0_r; reflexivity.
Qed.

(** More fuel does not change a run that ended. *)
Lemma ranged_loop_more_fuel (d : Z * Z) (s : Square) (empty opp : list Square) :
  forall (fuel fuel' : nat) (steps : Z) (l : list Move),
    ranged_loop fuel d s empty opp steps = Some l ->
    (fuel <= fuel')%nat ->
    ranged_loop fuel' d s empty opp steps = Some l.
Proof.
  induction fuel as [| fuel IH]; intros fuel' steps l H Hle; [discriminate |].
  destruct fuel' as [| fuel']; [lia |].
  simpl in *.
  destruct (mem _ empty); [| assumption].
  destruct (ranged_loop fuel d s empty opp (steps + 1)) as [rest |] eqn:E;
    [| discriminate].
  rewrite (IH fuel' _ _ E); [assumption | lia].
Qed.

(** The pigeonhole argument: the squares seen so far are pairwise distinct
    members of [empty_squares], so at most [len(empty_squares)] iterations
    can continue. *)
Lemma ranged_loop_halts_from (d : Z * Z) (s : Square) (empty opp : list Square) :
  d <> (0, 0) ->
  forall (fuel : nat) (steps : Z) (seen : list Square),
    NoDup seen ->
    (forall x, In x seen ->
       In x empty /\ exists k, k < steps /\ x = ray_square d s k) ->
    (length empty < fuel + length seen)%nat ->
    exists l, ranged_loop fuel d s empty opp steps = Some l.
Proof.
  intros Hd; induction fuel as [| fuel IH]; intros steps seen Hnd Hseen Hlen.
  - exfalso.
    assert (length seen <= length empty)%nat; [| lia].
    apply NoDup_incl_length; [assumption |].
    intros x Hx; apply Hseen; assumption.
  - simpl.
    destruct (mem (ray_square d s steps) empty) eqn:Hm.
    + destruct (IH (steps + 1) (ray_square d s steps :: seen)) as [rest Hrest].
      * constructor; [| assumption].
        intros Hin. destruct (Hseen _ Hin) as [_ [k [Hk E]]].
        apply ray_square_inj in E; [lia | assumption].
      * intros x [<- | Hx].
        -- split; [apply mem_In; assumption | exists steps; split; [lia | reflexivity]].
        -- destruct (Hseen _ Hx) as [Hi [k [Hk E]]].
           split; [assumption | exists k; split; [lia | assumption]].
      * simpl; lia.
      * rewrite Hrest; eauto.
    + destruct (mem (ray_square d s steps) opp); eauto.
Qed.

Lemma ranged_loop_halts (d : Z * Z) (s : Square) (empty opp : list Square) :
  d <> (0, 0) ->
  exists l, forall fuel, (length empty < fuel)%nat ->
    ranged_loop fuel d s empty opp 1 = Some l.
Proof.
  intros Hd.
  destruct (@ranged_loop_halts_from d s empty opp Hd (S (length empty)) 1 [])
    as [l Hl].
  - constructor.
  - intros x [].
  - simpl; lia.
  - exists l; intros fuel Hf.
    apply ranged_loop_more_fuel with (fuel := S (length empty)); [assumption | lia].
Qed.

(** With the null offset the loop looks at the start square for ever: the
    run that starts on an empty square exhausts every bound. *)
Lemma ranged_loop_null_offset (s : Square) (empty opp : list Square) :
  In s empty ->
  forall (fuel : nat) (steps : Z), ranged_loop fuel (0, 0) s empty opp steps = None.
Proof.
  intros Hin; induction fuel as [| fuel IH]; intros steps; [reflexivity |].
  simpl. rewrite ray_square_null.
  assert (E : mem s empty = true) by (apply mem_In; assumption).
  rewrite E, IH; reflexivity.
Qed.

(** The bound chosen in [get_ranged_piece_psuedo_legal_moves_in_direction]
    loses nothing: a run that does not end within [len(empty_squares) + 1]
    iterations does not end at all. *)
Lemma ranged_loop_bound_complete (d : Z * Z) (s : Square)
    (empty opp : list Square) :
  ranged_loop (S (length empty)) d s empty opp 1 = None ->
  forall fuel, ranged_loop fuel d s empty opp 1 = None.
Proof.
  intros H fuel.
  destruct (ranged_loop fuel d s empty opp 1) as [l |] eqn:E; [| reflexivity].
  exfalso.
  assert (Hd : d <> (0, 0)).
  { intros ->.
    destruct (mem s empty) eqn:Hs.
    - apply mem_In in Hs.
      rewrite (@ranged_loop_null_offset s empty opp Hs) in E; discriminate.
    - simpl in H. rewrite ray_square_null in H.
      rewrite Hs in H. destruct (mem s opp); discriminate. }
  destruct (@ranged_loop_halts d s empty opp Hd) as [l' Hl'].
  rewrite Hl' in H; [discriminate | lia].
Qed.

Lemma ranged_moves_Ok (d : Z * Z) (s : Square) (empty opp : list Square) :
  d <> (0, 0) ->
  exists l, get_ranged_piece_psuedo_legal_moves_in_direction d s empty opp = Ok l.
Proof.
  intros Hd. unfold get_ranged_piece_psuedo_legal_moves_in_direction.
  destruct (@ranged_loop_halts d s empty opp Hd) as [l Hl].
  rewrite Hl; [eauto | lia].
Qed.

(** Every move of a ray is tagged ORDINARY. *)
Lemma ranged_loop_ordinary (d : Z * Z) (s : Square) (empty opp : list Square) :
  forall (fuel : nat) (steps : Z) (l : list Move),
    ranged_loop fuel d s empty opp steps = Some l ->
    forall m, In m l -> move_type m = ORDINARY.
Proof.
  induction fuel as [| fuel IH]; intros steps l H m Hm; [discriminate |].
  simpl in H.
  destruct (mem _ empty).
  - destruct (ranged_loop fuel d s empty opp (steps + 1)) as [rest |] eqn:E;
      [| discriminate].
    inversion H; subst; clear H.
    destruct Hm as [<- | Hm]; [reflexivity | eapply IH; eauto].
  - destruct (mem _ opp); inversion H; subst; clear H.
    + destruct Hm as [<- | []]; reflexivity.
    + destruct Hm.
Qed.

(* ------------------------------------------------------------------ *)
(** ** Pseudo-legal moves of one piece *)

Section PieceMoves.

Context {Board : Type} {board_ops : BoardOps Board}.

(** The function, case by case, with the recursive calls of the QUEEN case
    resolved. *)
Lemma moves_for_piece_cases (p : Piece) (s : Square) (b : Board)
    (ep : option Square) :
  get_psuedo_legal_moves_for_piece p s b ep =
  let opp := get_squares_with_pieces b (opposing_color (color p)) in
  let opp_ep := opp ++ match ep with Some sq => [sq] | None => [] end in
  let empty := get_empty_squares b in
  match type p with
  | PAWN => Ok (pawn_moves (color p) s empty opp_ep)
  | KNIGHT => Ok (offset_moves knight_moves s (empty ++ opp_ep))
  | BISHOP => sliding_moves bishop_directions s empty opp_ep
  | ROOK => sliding_moves rook_directions s empty opp_ep
  | QUEEN =>
      as_bishop <- sliding_moves bishop_directions s empty (opp ++ []) ;;
      as_rook <- sliding_moves rook_directions s empty (opp ++ []) ;;
      Ok (as_bishop ++ as_rook)
  | KING => Ok (offset_moves king_moves s (empty ++ opp_ep))
  end.
Proof. destruct p as [c t]; destruct t; reflexivity. Qed.

Lemma bishop_directions_nonzero (d : Z * Z) :
  In d bishop_directions -> d <> (0, 0).
Proof. simpl; intuition (subst; discriminate). Qed.

Lemma rook_directions_nonzero (d : Z * Z) :
  In d rook_directions -> d <> (0, 0).
Proof. simpl; intuition (subst; discriminate). Qed.

Lemma sliding_moves_Ok (dirs : list (Z * Z)) (s : Square)
    (empty opp : list Square) :
  (forall d, In d dirs -> d <> (0, 0)) ->
  exists l, sliding_moves dirs s empty opp = Ok l.
Proof.
  intros H; apply extend_each_total.
  intros d Hd; apply ranged_moves_Ok; auto.
Qed.

Lemma sliding_moves_ordinary (dirs : list (Z * Z)) (s : Square)
    (empty opp : list Square) (l : list Move) :
  sliding_moves dirs s empty opp = Ok l ->
  forall m, In m l -> move_type m = ORDINARY.
Proof.
  intros H m Hm.
  apply (extend_each_In _ _ H) in Hm.
  destruct Hm as (d & ys & _ & Hys & Hm).
  unfold get_ranged_piece_psuedo_legal_moves_in_direction in Hys.
  destruct (ranged_loop _ d s empty opp 1) as [r |] eqn:E; [| discriminate].
  inversion Hys; subst.
  eapply ranged_loop_ordinary; eauto.
Qed.

Lemma offset_moves_ordinary (moves : list (Z * Z)) (s : Square)
    (available : list Square) (m : Move) :
  In m (offset_moves moves s available) -> move_type m = ORDINARY.
Proof.
  unfold offset_moves; rewrite in_map_iff; intros (e & <- & _); reflexivity.
Qed.

(** Every pawn move is a single step tagged by its row or a double push. *)
Lemma pawn_moves_tagged (c : PieceColor) (s : Square)
    (empty opp : list Square) (m : Move) :
  In m (pawn_moves c s empty opp) -> pawn_move_tagged c s m.
Proof.
  unfold pawn_moves, pawn_move_tagged.
  set (fwd := row s + get_pawn_direction c).
  assert (Htag : forall e, row e = fwd ->
            pawn_move_tagged c s
              (mkMove s e (if fwd =? get_pawn_end_row c
                           then PAWN_PROMOTION else ORDINARY))).
  { intros e He; unfold pawn_move_tagged; simpl; split; [reflexivity |].
    left; rewrite He; split; [reflexivity |].
    destruct (Z.eqb_spec fwd (get_pawn_end_row c)); split; congruence. }
  unfold pawn_move_tagged in Htag.
  rewrite in_app_iff, in_map_iff; intros [(e & <- & He) | Hpush].
  - apply Htag. apply filter_In in He; destruct He as [He _].
    simpl in He; destruct He as [<- | [<- | []]]; reflexivity.
  - destruct (mem (mkSquare fwd (column s)) empty); [| destruct Hpush].
    destruct Hpush as [<- | Hdouble]; [apply Htag; reflexivity |].
    destruct ((row s =? get_pawn_starting_row c)
              && mem (mkSquare (fwd + get_pawn_direction c) (column s)) empty)
      eqn:E; [| destruct Hdouble].
    destruct Hdouble as [<- | []]; simpl.
    apply andb_true_iff in E; destruct E as [E _]; apply Z.eqb_eq in E.
    split; [reflexivity | right; auto].
Qed.

Lemma pawn_moves_not_castle (c : PieceColor) (s : Square)
    (empty opp : list Square) (m : Move) :
  In m (pawn_moves c s empty opp) ->
  move_type m <> LONG_CASTLE /\ move_type m <> SHORT_CASTLE.
Proof.
  intros H; apply pawn_moves_tagged in H.
  destruct H as [_ [(_ & Hp & Ho) | (_ & _ & Hd)]].
  - destruct (Z.eq_dec (row (end_ m)) (get_pawn_end_row c)) as [E | E].
    + rewrite (Hp E); split; discriminate.
    + rewrite (Ho E); split; discriminate.
  - rewrite Hd; split; discriminate.
Qed.

(** The generator of one piece always returns a list. *)
Lemma moves_for_piece_Ok (p : Piece) (s : Square) (b : Board)
    (ep : option Square) :
  exists l, get_psuedo_legal_moves_for_piece p s b ep = Ok l.
Proof.
  rewrite moves_for_piece_cases; cbv zeta.
  destruct (type p); eauto;
    try (apply sliding_moves_Ok;
         auto using bishop_directions_nonzero, rook_directions_nonzero).
  destruct (@sliding_moves_Ok bishop_directions s (get_empty_squares b)
              (get_squares_with_pieces b (opposing_color (color p)) ++ [])
              bishop_directions_nonzero) as [lb ->].
  destruct (@sliding_moves_Ok rook_directions s (get_empty_squares b)
              (get_squares_with_pieces b (opposing_color (color p)) ++ [])
              rook_directions_nonzero) as [lr ->].
  simpl; eauto.
Qed.

(** No piece type generates castling. *)
Lemma moves_for_piece_not_castle (p : Piece) (s : Square) (b : Board)
    (ep : option Square) (l : list Move) (m : Move) :
  get_psuedo_legal_moves_for_piece p s b ep = Ok l -> In m l ->
  move_type m <> LONG_CASTLE /\ move_type m <> SHORT_CASTLE.
Proof.
  rewrite moves_for_piece_cases; cbv zeta.
  assert (Hord : move_type m = ORDINARY ->
                 move_type m <> LONG_CASTLE /\ move_type m <> SHORT_CASTLE)
    by (intros ->; split; discriminate).
  destruct (type p); intros H Hm.
  - inversion H; subst; eapply pawn_moves_not_castle; eauto.
  - inversion H; subst; eauto using offset_moves_ordinary.
  - eauto using sliding_moves_ordinary.
  - eauto using sliding_moves_ordinary.
  - inv_bind H. inv_bind H. inversion H; subst.
    apply in_app_iff in Hm; destruct Hm; eauto using sliding_moves_ordinary.
  - inversion H; subst; eauto using offset_moves_ordinary.
Qed.

End PieceMoves.

(* ------------------------------------------------------------------ *)
(** ** The rules of the game *)

Lemma bind_halts {A B : Type} (m : outcome A) (k : A -> outcome B) :
  m <> Diverge -> (forall a, m = Ok a -> k a <> Diverge) -> bind m k <> Diverge.
Proof. destruct m; simpl; intros Hm Hk; [apply Hk; reflexivity | discriminate | congruence]. Qed.

Lemma Ok_halts {A : Type} (m : outcome A) (a : A) : m = Ok a -> m <> Diverge.
Proof. congruence. Qed.

Section Rules.

Context {Board : Type} {board_ops : BoardOps Board} {game_ops : GameOps Board}.

Lemma moves_for_piece_halts (p : Piece) (s : Square) (b : Board)
    (ep : option Square) :
  get_psuedo_legal_moves_for_piece p s b ep <> Diverge.
Proof.
  destruct (moves_for_piece_Ok p s b ep) as [l ->]; discriminate.
Qed.

Lemma get_psuedo_legal_moves_halts (g : Game Board) :
  get_psuedo_legal_moves g <> Diverge.
Proof.
  apply extend_each_halts; intros sq _.
  destruct (getitem (board g) sq); [apply moves_for_piece_halts | discriminate].
Qed.

Lemma get_psuedo_legal_moves_not_castle (g : Game Board) (l : list Move)
    (m : Move) :
  get_psuedo_legal_moves g = Ok l -> In m l ->
  move_type m <> LONG_CASTLE /\ move_type m <> SHORT_CASTLE.
Proof.
  intros H Hm. apply (extend_each_In _ _ H) in Hm.
  destruct Hm as (sq & ys & _ & Hys & Hm).
  destruct (getitem (board g) sq); [| discriminate].
  eapply moves_for_piece_not_castle; eauto.
Qed.

Lemma attacked_from_halts (b : Board) (sq : Square) :
  attacked_from b sq <> Diverge.
Proof.
  unfold attacked_from. destruct (getitem b sq) as [p |]; [| discriminate].
  destruct (moves_for_piece_Ok p sq b None) as [l Hl].
  destruct (type p); try discriminate; rewrite Hl; discriminate.
Qed.

Lemma get_attacked_squares_halts (b : Board) (c : PieceColor) :
  get_attacked_squares b c <> Diverge.
Proof. apply extend_each_halts; intros; apply attacked_from_halts. Qed.

Lemma is_check_halts (b : Board) (c : PieceColor) : is_check b c <> Diverge.
Proof.
  unfold is_check. apply bind_halts; [apply get_attacked_squares_halts |].
  intros att _. destruct (find_king b c); discriminate.
Qed.

Lemma get_castling_moves_halts (g : Game Board) :
  get_castling_moves g <> Diverge.
Proof.
  unfold get_castling_moves. apply bind_halts; [apply is_check_halts |].
  intros [|] _; [discriminate |].
  apply bind_halts; [apply get_attacked_squares_halts | discriminate].
Qed.

Lemma get_legal_moves_halts (g : Game Board) : get_legal_moves g <> Diverge.
Proof.
  unfold get_legal_moves.
  apply bind_halts; [apply get_psuedo_legal_moves_halts |]; intros ps _.
  apply bind_halts.
  - apply filter_each_halts; intros m _.
    apply bind_halts; [apply is_check_halts | discriminate].
  - intros legal _.
    apply bind_halts; [apply get_castling_moves_halts | discriminate].
Qed.

Lemma is_insufficient_material_halts (pieces : list (option Piece)) :
  is_insufficient_material pieces <> Diverge.
Proof.
  unfold is_insufficient_material.
  destruct (2 <? length pieces)%nat; [discriminate |].
  apply bind_halts; [| discriminate].
  induction pieces as [| [p |] rest IH]; simpl; try discriminate.
  apply bind_halts; [assumption | discriminate].
Qed.

Lemma get_game_result_halts (g : Game Board) : get_game_result g <> Diverge.
Proof.
  unfold get_game_result.
  apply bind_halts; [apply get_legal_moves_halts |]; intros legal _.
  destruct (length legal =? 0)%nat.
  - apply bind_halts; [apply is_check_halts |].
    intros [|] _; discriminate.
  - apply bind_halts; [apply is_insufficient_material_halts |].
    intros [|] _; [| discriminate].
    apply bind_halts; [apply is_insufficient_material_halts |].
    intros [|] _; discriminate.
Qed.

(** *** Castling *)

Lemma valid_castling_squares_iff (empty attacked squares : list Square) :
  forallb (valid_castling_square empty attacked) squares = true <->
  forall sq, In sq squares -> In sq empty /\ ~ In sq attacked.
Proof.
  rewrite forallb_forall; unfold valid_castling_square.
  split; intros H sq Hsq; specialize (H sq Hsq).
  - apply andb_true_iff in H; destruct H as [He Ha].
    apply negb_true_iff in Ha.
    split; [apply mem_In | apply mem_not_In]; assumption.
  - destruct H as [He Ha]; apply andb_true_iff; split.
    + apply mem_In; assumption.
    + apply negb_true_iff, mem_not_In; assumption.
Qed.

(** What [__get_castling_moves] returns, by cases on its tests. *)
Lemma get_castling_moves_cases (g : Game Board) (l : list Move) :
  get_castling_moves g = Ok l ->
  (is_check (board g) (turn g) = Ok true /\ l = []) \/
  (is_check (board g) (turn g) = Ok false /\
   exists attacked,
     get_attacked_squares (board g) (opposing_color (turn g)) = Ok attacked /\
     l = (if long_castling_rights g (turn g)
             && forallb (valid_castling_square (get_empty_squares (board g))
                           attacked)
                  (long_castling_squares (back_rank g))
          then long_castling_moves (back_rank g) else [])
         ++
         (if short_castling_rights g (turn g)
             && forallb (valid_castling_square (get_empty_squares (board g))
                           attacked)
                  (short_castling_squares (back_rank g))
          then short_castling_moves (back_rank g) else [])).
Proof.
  unfold get_castling_moves, back_rank; intros H.
  inv_bind H. destruct v.
  - left; inversion H; auto.
  - right; split; [assumption |].
    inv_bind H. exists v; split; [assumption |].
    inversion H; subst; clear H.
    destruct (long_castling_rights g (turn g)),
             (short_castling_rights g (turn g)); reflexivity.
Qed.

Lemma castling_preconditions_test (g : Game Board)
    (rights : PieceColor -> bool) (between attacked : list Square) :
  is_check (board g) (turn g) = Ok false ->
  get_attacked_squares (board g) (opposing_color (turn g)) = Ok attacked ->
  (castling_preconditions g rights between <->
   rights (turn g)
   && forallb (valid_castling_square (get_empty_squares (board g)) attacked)
        between = true).
Proof.
  intros Hc Ha; unfold castling_preconditions.
  rewrite andb_true_iff, valid_castling_squares_iff; split.
  - intros (_ & Hr & att & Hatt & Hsq).
    rewrite Ha in Hatt; inversion Hatt; subst; auto.
  - intros [Hr Hsq]; repeat split; eauto.
Qed.

Lemma castling_preconditions_not_in_check (g : Game Board)
    (rights : PieceColor -> bool) (between : list Square) :
  castling_preconditions g rights between ->
  is_check (board g) (turn g) <> Ok true.
Proof. intros [H _]; rewrite H; discriminate. Qed.

(** A castling move of the generator implies the preconditions of its
    side. *)
Lemma get_castling_moves_sound (g : Game Board) (l : list Move) (m : Move) :
  get_castling_moves g = Ok l -> In m l ->
  (move_type m = LONG_CASTLE -> long_castling_preconditions g) /\
  (move_type m = SHORT_CASTLE -> short_castling_preconditions g).
Proof.
  intros H Hm.
  destruct (get_castling_moves_cases g H)
    as [[_ ->] | (Hc & att & Ha & ->)]; [destruct Hm |].
  unfold long_castling_preconditions, short_castling_preconditions.
  change (map (mkSquare (back_rank g)) [1; 2; 3])
    with (long_castling_squares (back_rank g)).
  change (map (mkSquare (back_rank g)) [5; 6])
    with (short_castling_squares (back_rank g)).
  rewrite !(castling_preconditions_test g _ _ Hc Ha).
  apply in_app_iff in Hm.
  destruct Hm as [Hm | Hm];
    match type of Hm with
    | In _ (if ?t then _ else _) => destruct t eqn:E; [| destruct Hm]
    end;
    simpl in Hm; intuition (subst; try discriminate; auto).
Qed.

(** Under the preconditions of a side the generator returns exactly the
    castling moves of that side. *)
Lemma get_castling_moves_complete (g : Game Board) (l : list Move) :
  get_castling_moves g = Ok l ->
  (long_castling_preconditions g ->
   filter is_long_castle l = long_castling_moves (back_rank g)) /\
  (short_castling_preconditions g ->
   filter is_short_castle l = short_castling_moves (back_rank g)).
Proof.
  intros H.
  destruct (get_castling_moves_cases g H)
    as [[Hc ->] | (Hc & att & Ha & ->)].
  - split; intros Hp; apply castling_preconditions_not_in_check in Hp;
      contradiction.
  - unfold long_castling_preconditions, short_castling_preconditions.
    change (map (mkSquare (back_rank g)) [1; 2; 3])
      with (long_castling_squares (back_rank g)).
    change (map (mkSquare (back_rank g)) [5; 6])
      with (short_castling_squares (back_rank g)).
    rewrite !(castling_preconditions_test g _ _ Hc Ha), !filter_app.
    split; intros ->;
      match goal with
      | |- context [if ?t then _ else _] => destruct t
      end; reflexivity.
Qed.

(** *** Legal moves *)

(** A legal move is a pseudo-legal move that passed the simulation test, or
    a move of the castling generator. *)
Lemma get_legal_moves_cases (g : Game Board) (l : list Move) :
  get_legal_moves g = Ok l ->
  exists pseudo legal castling,
    get_psuedo_legal_moves g = Ok pseudo /\
    get_castling_moves g = Ok castling /\
    l = legal ++ castling /\
    forall m, In m legal <->
      In m pseudo /\ is_check (simulate_move g m) (turn g) = Ok false.
Proof.
  unfold get_legal_moves; intros H.
  inv_bind H. inv_bind H. inv_bind H. inversion H; subst; clear H.
  exists v, v0, v1.
  split; [assumption |]. split; [assumption |]. split; [reflexivity |].
  intros m; split.
  - intros Hm. apply (filter_each_In _ _ Hv0) in Hm.
    destruct Hm as [Hp Hm]. split; [assumption |]. inv_bind Hm.
    destruct v2; [discriminate | assumption].
  - intros [Hm Hc]. apply (filter_each_In _ _ Hv0).
    split; [assumption | rewrite Hc; reflexivity].
Qed.

Lemma not_castle_filters (l : list Move) :
  (forall m, In m l ->
     move_type m <> LONG_CASTLE /\ move_type m <> SHORT_CASTLE) ->
  filter is_long_castle l = [] /\ filter is_short_castle l = [].
Proof.
  induction l as [| m l IH]; intros H; [auto |].
  destruct IH as [IHl IHs]; [intros; apply H; simpl; auto |].
  destruct (H m (or_introl eq_refl)) as [Hl Hs].
  simpl; unfold is_long_castle, is_short_castle in *.
  destruct (move_type m); try congruence; auto.
Qed.

End Rules.

(* ------------------------------------------------------------------ *)
(** ** Boards that keep their contract *)

Section Contract.

Context {Board : Type} {board_ops : BoardOps Board} {game_ops : GameOps Board}
        {contract : BoardContract Board}.

Lemma listed_square_has_piece (b : Board) (c : PieceColor) (sq : Square) :
  In sq (get_squares_with_pieces b c) ->
  exists t, getitem b sq = Some (mkPiece c t).
Proof. apply squares_with_pieces_lookup. Qed.

Lemma attacked_from_Ok (b : Board) (c : PieceColor) (sq : Square) :
  In sq (get_squares_with_pieces b c) -> exists l, attacked_from b sq = Ok l.
Proof.
  intros H; destruct (listed_square_has_piece _ _ _ H) as [t Ht].
  unfold attacked_from; rewrite Ht; simpl.
  destruct (moves_for_piece_Ok (mkPiece c t) sq b None) as [l Hl].
  destruct t; eauto; rewrite Hl; simpl; eauto.
Qed.

Lemma get_attacked_squares_Ok (b : Board) (c : PieceColor) :
  exists l, get_attacked_squares b c = Ok l.
Proof.
  apply extend_each_total; intros sq Hsq; eapply attacked_from_Ok; eauto.
Qed.


(** The scan of [is_check] ends without a king square exactly when no
    listed square holds a KING. *)
Lemma find_king_scan (b : Board) (squares : list Square) :
  forall acc : option Square,
    fold_left
      (fun king_square square =>
         match getitem b square with
         | Some piece =>
             if type_eqb (type piece) KING then Some square else king_square
         | None => king_square
         end) squares acc = None <->
    acc = None /\
    forall sq p, In sq squares -> getitem b sq = Some p -> type p <> KING.
Proof.
  induction squares as [| sq rest IH]; intros acc; simpl.
  - split; [intros ->; split; [reflexivity | intros ? ? []] | tauto].
  - rewrite IH; clear IH.
    destruct (getitem b sq) as [p |] eqn:Hp.
    + destruct (type_eqb (type p) KING) eqn:Ht.
      * apply type_eqb_eq in Ht. split; [intros [? _]; discriminate |].
        intros [_ H]. exfalso. apply (H sq p); auto.
      * assert (Hnk : type p <> KING)
          by (intros E; apply type_eqb_eq in E; congruence).
        split; intros [Ha H]; (split; [assumption |]).
        -- intros sq' p' [<- | Hin] Hq; [congruence | eauto].
        -- intros sq' p' Hin Hq; eauto.
    + split; intros [Ha H]; (split; [assumption |]).
      * intros sq' p' [<- | Hin] Hq; [congruence | eauto].
      * intros sq' p' Hin Hq; eauto.
Qed.

Lemma find_king_None (b : Board) (c : PieceColor) :
  find_king b c = None <-> ~ has_king b c.
Proof.
  unfold find_king; rewrite find_king_scan; unfold has_king; split.
  - intros [_ H] [sq Hsq].
    apply (H sq (mkPiece c KING)); [| assumption | reflexivity].
    apply squares_with_pieces_lookup; eauto.
  - intros H; split; [reflexivity |].
    intros sq p Hin Hp Ht; apply H.
    destruct (listed_square_has_piece _ _ _ Hin) as [t Hq].
    rewrite Hq in Hp; inversion Hp; subst; simpl in Ht; subst; eauto.
Qed.

Lemma find_king_scan_found (b : Board) (squares : list Square) :
  forall (acc : option Square) (k : Square),
    fold_left
      (fun king_square square =>
         match getitem b square with
         | Some piece =>
             if type_eqb (type piece) KING then Some square else king_square
         | None => king_square
         end) squares acc = Some k ->
    acc = Some k \/
    exists p, In k squares /\ getitem b k = Some p /\ type p = KING.
Proof.
  induction squares as [| sq rest IH]; intros acc k; simpl; [auto |].
  intros H; apply IH in H; clear IH.
  destruct H as [H | (p & Hin & Hp & Ht)]; [| right; eauto].
  destruct (getitem b sq) as [p |] eqn:Hp; [| auto].
  destruct (type_eqb (type p) KING) eqn:Ht; [| auto].
  inversion H; subst. apply type_eqb_eq in Ht. right; eauto.
Qed.

Lemma find_king_Some (b : Board) (c : PieceColor) (k : Square) :
  find_king b c = Some k -> getitem b k = Some (mkPiece c KING).
Proof.
  intros H; apply find_king_scan_found in H.
  destruct H as [H | (p & Hin & Hp & Ht)]; [discriminate |].
  destruct (listed_square_has_piece _ _ _ Hin) as [t Hq].
  rewrite Hq in Hp; inversion Hp; subst; simpl in Ht; subst; assumption.
Qed.

(** [is_check] raises [ValueError] when the king is missing and returns a
    boolean otherwise. *)
Lemma is_check_outcome (b : Board) (c : PieceColor) :
  (~ has_king b c /\ is_check b c = Raise ValueError) \/
  (has_king b c /\ exists v, is_check b c = Ok v).
Proof.
  unfold is_check.
  destruct (get_attacked_squares_Ok b (opposing_color c)) as [att ->]; simpl.
  destruct (find_king b c) as [k |] eqn:Hk.
  - right; split; [exists k; apply find_king_Some; assumption | eauto].
  - left; split; [apply find_king_None; assumption | reflexivity].
Qed.

Lemma is_check_Raise (b : Board) (c : PieceColor) :
  ~ has_king b c -> is_check b c = Raise ValueError.
Proof. destruct (is_check_outcome b c) as [[_ H] | [H _]]; tauto. Qed.





(** *** Material *)

Lemma types_of_pieces_of (b : Board) (c : PieceColor) :
  types_of (pieces_of b c) = Ok (piece_types b c).
Proof.
  unfold pieces_of, piece_types.
  assert (H : forall sq, In sq (get_squares_with_pieces b c) ->
                exists t, getitem b sq = Some (mkPiece c t))
    by (intros; apply listed_square_has_piece; assumption).
  induction (get_squares_with_pieces b c) as [| sq rest IH]; [reflexivity |].
  simpl. destruct (H sq (or_introl eq_refl)) as [t ->].
  rewrite IH; [reflexivity | intros; apply H; simpl; auto].
Qed.

Lemma same_type_set_iff (a b : list PieceType) :
  same_type_set a b = true <-> same_set a b.
Proof.
  unfold same_type_set, same_set.
  rewrite andb_true_iff, !forallb_forall.
  assert (Hex : forall t l, existsb (type_eqb t) l = true <-> In t l).
  { intros t l; rewrite existsb_exists; split.
    - intros (x & Hx & E); apply type_eqb_eq in E; subst; assumption.
    - intros Hin; exists t; split; [assumption | apply type_eqb_eq; reflexivity]. }
  split.
  - intros [Hab Hba] t; split; intros Ht; apply Hex; auto.
  - intros H; split; intros t Ht; apply Hex, H; assumption.
Qed.

(** On a board that keeps its contract [__is_insufficient_material] decides
    [insufficient_material_equal]. *)
Lemma is_insufficient_material_decides (b : Board) (c : PieceColor) :
  exists v, is_insufficient_material (pieces_of b c) = Ok v /\
            (v = true <-> insufficient_material_equal b c).
Proof.
  unfold is_insufficient_material, insufficient_material_equal, piece_count.
  assert (Hlen : length (pieces_of b c) = length (get_squares_with_pieces b c))
    by (unfold pieces_of; apply length_map).
  rewrite Hlen.
  destruct (Nat.ltb_spec 2 (length (get_squares_with_pieces b c))) as [Hgt | Hle].
  - exists false; split; [reflexivity |]. split; [discriminate | intros [? _]; lia].
  - rewrite types_of_pieces_of; simpl.
    eexists; split; [reflexivity |].
    rewrite !orb_true_iff, !same_type_set_iff. tauto.
Qed.

End Contract.

(* ------------------------------------------------------------------ *)
(** ** The concrete board keeps the contract *)

Lemma indices_range (z : Z) : In z Concrete.indices <-> 0 <= z < 8.
Proof. unfold Concrete.indices; simpl; lia. Qed.

Lemma all_squares_valid (sq : Square) :
  In sq Concrete.all_squares <-> is_valid sq = true.
Proof.
  unfold Concrete.all_squares, is_valid.
  rewrite in_flat_map, !andb_true_iff, !Z.leb_le, !Z.ltb_lt; split.
  - intros (r & Hr & Hin). apply in_map_iff in Hin.
    destruct Hin as (c & <- & Hc); simpl.
    apply indices_range in Hr; apply indices_range in Hc; lia.
  - intros H. exists (row sq); split; [apply indices_range; lia |].
    apply in_map_iff; exists (column sq); split;
      [destruct sq; reflexivity | apply indices_range; lia].
Qed.

#[global] Instance c_board_contract : BoardContract Concrete.CBoard.
Proof.
  constructor; intros b c sq; simpl.
  unfold Concrete.c_get_squares_with_pieces, Concrete.c_getitem.
  rewrite filter_In, all_squares_valid.
  destruct (is_valid sq); [| split; [intros [? _] | intros [? ?]]; discriminate].
  destruct (b sq) as [[pc pt] |]; simpl.
  - destruct pc, c; simpl; split;
      try (intros [_ ?]; discriminate);
      try (intros [? E]; discriminate E);
      eauto.
  - split; [intros [_ ?] | intros [? ?]]; discriminate.
Qed.

(* ------------------------------------------------------------------ *)
(** * The claims of the specification *)

Section Claims.

Context {Board : Type} {board_ops : BoardOps Board} {game_ops : GameOps Board}.

(** C2.  A LONG_CASTLE (SHORT_CASTLE) move is among the legal moves only if
    the side to move is not in check, its long (short) castling flag is set
    and the squares of columns 1, 2, 3 (5, 6) of the back rank are all empty
    and not attacked by the opponent; when one of these fails, the legal
    moves hold no castling move of that side. *)
Theorem castling_requires_preconditions (g : Game Board) (l : list Move) :
  get_legal_moves g = Ok l ->
  (forall m, In m l ->
     (move_type m = LONG_CASTLE -> long_castling_preconditions g) /\
     (move_type m = SHORT_CASTLE -> short_castling_preconditions g)) /\
  (~ long_castling_preconditions g -> filter is_long_castle l = []) /\
  (~ short_castling_preconditions g -> filter is_short_castle l = []).
Proof.
  intros H.
  destruct (get_legal_moves_cases g H)
    as (pseudo & legal & castling & Hp & Hc & -> & Hlegal).
  assert (Hall : forall m, In m (legal ++ castling) ->
            (move_type m = LONG_CASTLE -> long_castling_preconditions g) /\
            (move_type m = SHORT_CASTLE -> short_castling_preconditions g)).
  { intros m Hm; apply in_app_iff in Hm; destruct Hm as [Hm | Hm].
    - apply Hlegal in Hm; destruct Hm as [Hm _].
      destruct (get_psuedo_legal_moves_not_castle g _ Hp Hm); tauto.
    - eapply get_castling_moves_sound; eauto. }
  split; [exact Hall |].
  split; intros Hn.
  - destruct (filter is_long_castle (legal ++ castling)) as [| m rest] eqn:E;
      [reflexivity | exfalso].
    assert (Hm : In m (filter is_long_castle (legal ++ castling)))
      by (rewrite E; left; reflexivity).
    apply filter_In in Hm; destruct Hm as [Hm Ht].
    apply Hn, (Hall m Hm).
    unfold is_long_castle in Ht; destruct (move_type m); congruence.
  - destruct (filter is_short_castle (legal ++ castling)) as [| m rest] eqn:E;
      [reflexivity | exfalso].
    assert (Hm : In m (filter is_short_castle (legal ++ castling)))
      by (rewrite E; left; reflexivity).
    apply filter_In in Hm; destruct Hm as [Hm Ht].
    apply Hn, (Hall m Hm).
    unfold is_short_castle in Ht; destruct (move_type m); congruence.
Qed.

(** C3.  When [get_legal_moves g] is empty, [get_game_result g] is the win
    of the opponent of the side to move (WHITE_WIN when Black is to move,
    BLACK_WIN when White is) if [is_check] is true on the board of the game,
    and STALEMATE if it is false. *)
Theorem no_legal_moves_result (g : Game Board) :
  get_legal_moves g = Ok [] ->
  (is_check (board g) (turn g) = Ok true /\
   get_game_result g =
     Ok (Some match turn g with BLACK => WHITE_WIN | WHITE => BLACK_WIN end))
  \/
  (is_check (board g) (turn g) = Ok false /\
   get_game_result g = Ok (Some STALEMATE)).
Proof.
  intros H. unfold get_game_result; rewrite H; simpl.
  destruct (get_legal_moves_cases g H) as (_ & _ & castling & _ & Hc & _ & _).
  destruct (get_castling_moves_cases g Hc)
    as [[Hk _] | (Hk & _)]; rewrite Hk; simpl.
  - left; split; [reflexivity |]. destruct (turn g); reflexivity.
  - right; split; reflexivity.
Qed.

(** C8.  When the long-castling preconditions hold, the legal moves contain
    exactly three LONG_CASTLE moves, from column 4 of the back rank to its
    columns 0, 1 and 2; when the short-castling preconditions hold, they
    contain exactly two SHORT_CASTLE moves, from the same square to columns
    6 and 7. *)
Theorem castling_moves_offered (g : Game Board) (l : list Move) :
  get_legal_moves g = Ok l ->
  (long_castling_preconditions g ->
   filter is_long_castle l =
     [mkMove (mkSquare (back_rank g) 4) (mkSquare (back_rank g) 0) LONG_CASTLE;
      mkMove (mkSquare (back_rank g) 4) (mkSquare (back_rank g) 1) LONG_CASTLE;
      mkMove (mkSquare (back_rank g) 4) (mkSquare (back_rank g) 2) LONG_CASTLE])
  /\
  (short_castling_preconditions g ->
   filter is_short_castle l =
     [mkMove (mkSquare (back_rank g) 4) (mkSquare (back_rank g) 6) SHORT_CASTLE;
      mkMove (mkSquare (back_rank g) 4) (mkSquare (back_rank g) 7) SHORT_CASTLE]).
Proof.
  intros H.
  destruct (get_legal_moves_cases g H)
    as (pseudo & legal & castling & Hp & Hc & -> & Hlegal).
  assert (Hnc : forall m, In m legal ->
            move_type m <> LONG_CASTLE /\ move_type m <> SHORT_CASTLE).
  { intros m Hm; apply Hlegal in Hm; destruct Hm as [Hm _].
    eapply get_psuedo_legal_moves_not_castle; eauto. }
  destruct (not_castle_filters legal Hnc) as [El Es].
  destruct (get_castling_moves_complete g Hc) as [Hlong Hshort].
  rewrite !filter_app, El, Es; simpl.
  split; intros Hpre; [apply Hlong | apply Hshort]; assumption.
Qed.

(** C10.  Castling generation does not look at the king's home square
    (column 4 of the back rank) nor at the rook's corner square: whatever
    [home] and [corner] these squares hold, piece or none, a game that meets
    the castling preconditions of a side has the castling moves of that side
    among its legal moves. *)
Theorem castling_ignores_home_squares (g : Game Board) (l : list Move)
    (home long_corner short_corner : option Piece) :
  get_legal_moves g = Ok l ->
  getitem (board g) (mkSquare (back_rank g) 4) = home ->
  getitem (board g) (mkSquare (back_rank g) 0) = long_corner ->
  getitem (board g) (mkSquare (back_rank g) 7) = short_corner ->
  (long_castling_preconditions g ->
   incl (long_castling_moves (back_rank g)) l) /\
  (short_castling_preconditions g ->
   incl (short_castling_moves (back_rank g)) l).
Proof.
  intros H _ _ _.
  destruct (get_legal_moves_cases g H)
    as (pseudo & legal & castling & _ & Hc & -> & _).
  destruct (get_castling_moves_complete g Hc) as [Hlong Hshort].
  split; intros Hpre m Hm; apply in_app_iff; right.
  - rewrite <- (Hlong Hpre) in Hm. apply filter_In in Hm; tauto.
  - rewrite <- (Hshort Hpre) in Hm. apply filter_In in Hm; tauto.
Qed.

End Claims.

Section PawnAndTermination.

Context {Board : Type} {board_ops : BoardOps Board} {game_ops : GameOps Board}.

(** C6.  The pseudo-legal moves of a pawn are single steps onto the next row
    (the push and the two captures) and the double push.  A single step is
    tagged PAWN_PROMOTION when its destination row is [pawn_end_row(color)]
    and ORDINARY otherwise; the double push is tagged DOUBLE_PAWN_PUSH.  On
    a board where a double push cannot land on the end row, every pawn move
    that reaches the end row is therefore tagged PAWN_PROMOTION and every
    other pawn move ORDINARY or DOUBLE_PAWN_PUSH. *)
Theorem pawn_moves_promotion_tag (c : PieceColor) (s : Square) (b : Board)
    (ep : option Square) :
  exists l,
    get_psuedo_legal_moves_for_piece (mkPiece c PAWN) s b ep = Ok l /\
    (forall m, In m l -> pawn_move_tagged c s m) /\
    (get_pawn_starting_row c + 2 * get_pawn_direction c <> get_pawn_end_row c ->
     forall m, In m l ->
       (row (end_ m) = get_pawn_end_row c -> move_type m = PAWN_PROMOTION) /\
       (row (end_ m) <> get_pawn_end_row c ->
        move_type m = ORDINARY \/ move_type m = DOUBLE_PAWN_PUSH)).
Proof.
  rewrite moves_for_piece_cases; cbn [type color].
  eexists; split; [reflexivity |].
  split; [intros m Hm; eapply pawn_moves_tagged; eauto |].
  intros Hgeo m Hm. apply pawn_moves_tagged in Hm.
  destruct Hm as [_ [(Hrow & Hp & Ho) | (He & Hs & Hd)]].
  - split; [assumption | auto].
  - split; [| auto].
    rewrite He; cbn [row]; intros E; lia.
Qed.

(** C9.  The ray-casting loop halts for each of the eight directions of the
    sliding pieces, every start square and every two finite lists of
    squares: from [len(empty_squares) + 1] iterations on, every bound yields
    the same list of moves.  Hence [is_check], [get_legal_moves] and
    [get_game_result] never run for ever: each returns or raises. *)
Theorem game_rules_terminate :
  (forall (d : Z * Z) (s : Square) (empty opp : list Square),
     In d (bishop_directions ++ rook_directions) ->
     exists l,
       (forall fuel, (length empty < fuel)%nat ->
          ranged_loop fuel d s empty opp 1 = Some l) /\
       get_ranged_piece_psuedo_legal_moves_in_direction d s empty opp = Ok l)
  /\ (forall (b : Board) (c : PieceColor), is_check b c <> Diverge)
  /\ (forall g : Game Board, get_legal_moves g <> Diverge)
  /\ (forall g : Game Board, get_game_result g <> Diverge).
Proof.
  split; [| split; [apply is_check_halts |
                    split; [apply get_legal_moves_halts
                           | apply get_game_result_halts]]].
  intros d s empty opp Hd.
  assert (Hnz : d <> (0, 0)).
  { apply in_app_iff in Hd; destruct Hd;
      [apply bishop_directions_nonzero | apply rook_directions_nonzero];
      assumption. }
  destruct (@ranged_loop_halts d s empty opp Hnz) as [l Hl].
  exists l; split; [assumption |].
  unfold get_ranged_piece_psuedo_legal_moves_in_direction.
  rewrite Hl; [reflexivity | lia].
Qed.

End PawnAndTermination.

Section ContractClaims.

Context {Board : Type} {board_ops : BoardOps Board} {game_ops : GameOps Board}
        {contract : BoardContract Board}.

(** What the code tests: for every game with a non-empty list of legal
    moves, [get_game_result] returns INSUFFICIENT_MATERIAL exactly when each
    side has at most two pieces and its set of piece types is equal to
    {KING}, {KING, KNIGHT} or {KING, BISHOP}; otherwise it returns no
    result. *)
Lemma insufficient_material_result (g : Game Board) (l : list Move) :
  get_legal_moves g = Ok l ->
  l <> [] ->
  (insufficient_material_equal (board g) WHITE /\
   insufficient_material_equal (board g) BLACK ->
   get_game_result g = Ok (Some INSUFFICIENT_MATERIAL)) /\
  (~ (insufficient_material_equal (board g) WHITE /\
      insufficient_material_equal (board g) BLACK) ->
   get_game_result g = Ok None).
Proof.
  intros H Hne. unfold get_game_result; rewrite H; simpl.
  destruct l as [| m l]; [congruence |]; simpl.
  destruct (is_insufficient_material_decides (board g) WHITE) as (w & -> & Hw).
  destruct (is_insufficient_material_decides (board g) BLACK) as (k & Hk & Hb).
  simpl. destruct w; simpl.
  - rewrite Hk; simpl. destruct k; split; try reflexivity.
    + intros Hn; exfalso; apply Hn; split; [apply Hw | apply Hb]; reflexivity.
    + intros [_ Hb']; apply Hb in Hb'; discriminate.
  - split; [| reflexivity].
    intros [Hw' _]; apply Hw in Hw'; discriminate.
Qed.

(** When the side has a king, inclusion and equality of the type sets say
    the same, so the wording of the specification is met on such boards. *)
Lemma insufficient_material_with_king (b : Board) (c : PieceColor) :
  In KING (piece_types b c) ->
  (insufficient_material_subset b c <-> insufficient_material_equal b c).
Proof.
  intros Hk; unfold insufficient_material_subset, insufficient_material_equal.
  assert (Hdec : forall t, {In t (piece_types b c)} + {~ In t (piece_types b c)}).
  { intros t; apply in_dec. decide equality. }
  assert (Hsub : forall x, incl (piece_types b c) [KING; x] ->
            same_set (piece_types b c) [KING] \/
            same_set (piece_types b c) [KING; x]).
  { intros x Hi. destruct (Hdec x) as [Hx | Hx].
    - right; intros t; split; [apply Hi |].
      simpl; intros [<- | [<- | []]]; assumption.
    - left; intros t; split.
      + intros Ht. destruct (Hi t Ht) as [<- | [<- | []]];
          [left; reflexivity | contradiction].
      + simpl; intros [<- | []]; assumption. }
  split; intros [Hc Hs]; (split; [assumption |]).
  - destruct Hs as [Hs | [Hs | Hs]].
    + left; intros t; split; [apply Hs | simpl; intros [<- | []]; assumption].
    + destruct (Hsub _ Hs); auto.
    + destruct (Hsub _ Hs); auto.
  - destruct Hs as [Hs | [Hs | Hs]];
      [left | right; left | right; right]; intros t Ht; apply Hs; assumption.
Qed.

Lemma has_king_piece_types (b : Board) (c : PieceColor) :
  has_king b c -> In KING (piece_types b c).
Proof.
  intros [sq Hsq]. unfold piece_types. apply in_flat_map.
  exists sq; split; [apply squares_with_pieces_lookup; eauto |].
  rewrite Hsq; left; reflexivity.
Qed.

(** C4.  On a board with a king of each color, for every game with a
    non-empty list of legal moves, [get_game_result] returns
    INSUFFICIENT_MATERIAL exactly when each side independently has at most
    two pieces and a set of piece types that is a subset of {KING},
    {KING, KNIGHT} or {KING, BISHOP}; otherwise it returns no result. *)
Theorem game_result_insufficient_material (g : Game Board) (l : list Move) :
  get_legal_moves g = Ok l ->
  l <> [] ->
  has_king (board g) WHITE ->
  has_king (board g) BLACK ->
  (insufficient_material_subset (board g) WHITE /\
   insufficient_material_subset (board g) BLACK ->
   get_game_result g = Ok (Some INSUFFICIENT_MATERIAL)) /\
  (~ (insufficient_material_subset (board g) WHITE /\
      insufficient_material_subset (board g) BLACK) ->
   get_game_result g = Ok None).
Proof.
  intros H Hne Hw Hb.
  destruct (insufficient_material_result g H Hne) as [Hyes Hno].
  assert (Ew := insufficient_material_with_king (board g) WHITE
                  (has_king_piece_types Hw)).
  assert (Eb := insufficient_material_with_king (board g) BLACK
                  (has_king_piece_types Hb)).
  split.
  - intros [Sw Sb]. apply Hyes. split; [apply Ew | apply Eb]; assumption.
  - intros Hn. apply Hno. intros [Sw Sb]. apply Hn.
    split; [apply Ew | apply Eb]; assumption.
Qed.


(** C7.  The list of attacked squares of a color consists of, for each pawn
    of that color, its two diagonal-forward squares when they are valid
    board coordinates, whatever stands on them, and for each other piece of
    that color, the end squares of its pseudo-legal moves computed without
    en-passant target. *)
Theorem attacked_squares_characterised (b : Board) (c : PieceColor) :
  exists l,
    get_attacked_squares b c = Ok l /\
    forall x, In x l <->
      exists s t,
        In s (get_squares_with_pieces b c) /\
        getitem b s = Some (mkPiece c t) /\
        ((t = PAWN /\
          is_valid x = true /\
          (x = mkSquare (row s + get_pawn_direction c) (column s - 1) \/
           x = mkSquare (row s + get_pawn_direction c) (column s + 1)))
         \/
         (t <> PAWN /\
          exists moves,
            get_psuedo_legal_moves_for_piece (mkPiece c t) s b None = Ok moves /\
            In x (map end_ moves))).
Proof.
  destruct (get_attacked_squares_Ok b c) as [l Hl].
  exists l; split; [assumption |].
  intros x. rewrite (extend_each_In _ _ Hl x); split.
  - intros (s & ys & Hs & Hys & Hx).
    destruct (listed_square_has_piece _ _ _ Hs) as [t Ht].
    exists s, t; split; [assumption |]. split; [assumption |].
    unfold attacked_from in Hys; rewrite Ht in Hys.
    destruct t; cbn [type color] in Hys;
      try (right; split; [discriminate |];
           inv_bind Hys; inversion Hys; subst; eauto).
    left.
    replace ys with (filter is_valid (pawn_capture_squares c s)) in Hx
      by congruence.
    apply filter_In in Hx; destruct Hx as [Hx Hv].
    split; [reflexivity |]. split; [assumption |].
    simpl in Hx; destruct Hx as [<- | [<- | []]]; auto.
  - intros (s & t & Hs & Ht & Hcase).
    destruct (attacked_from_Ok _ _ _ Hs) as [ys Hys].
    exists s, ys; split; [assumption |]. split; [assumption |].
    unfold attacked_from in Hys; rewrite Ht in Hys.
    destruct Hcase as [(-> & Hv & Hx) | (Hnp & moves & Hm & Hx)].
    + cbn [type color] in Hys.
      replace ys with (filter is_valid (pawn_capture_squares c s))
        by congruence.
      apply filter_In; split; [| assumption].
      unfold pawn_capture_squares; simpl; destruct Hx; auto.
    + rewrite Hm in Hys.
      destruct t; try contradiction; cbn [type color bind] in Hys;
        inversion Hys; subst; assumption.
Qed.

End ContractClaims.

(* ------------------------------------------------------------------ *)
(** * The claims on concrete games *)

Import Concrete.

(** From the starting position there are twenty legal moves: eight single
    and eight double pawn pushes and four knight moves; the game is not
    over. *)
Example starting_position_moves :
  length (legal_of starting_game) = 20%nat /\
  length (filter (fun m => match move_type m with
                           | DOUBLE_PAWN_PUSH => true
                           | _ => false
                           end) (legal_of starting_game)) = 8%nat /\
  get_game_result starting_game = Ok None.
Proof. vm_compute; auto. Qed.

(** Two kings and a lone bishop: a draw by insufficient material. *)
Example bishop_game_result :
  get_game_result bishop_game = Ok (Some INSUFFICIENT_MATERIAL).
Proof. vm_compute; reflexivity. Qed.

(** No legal move and no check: stalemate. *)
Example stalemate_game_result :
  get_legal_moves stalemate_game = Ok [] /\
  is_check (board stalemate_game) BLACK = Ok false /\
  get_game_result stalemate_game = Ok (Some STALEMATE).
Proof. vm_compute; auto. Qed.

(** Both castling preconditions hold in [stray_king_game]. *)
Lemma stray_king_long_preconditions :
  long_castling_preconditions stray_king_game.
Proof.
  apply (@castling_preconditions_test CBoard _ stray_king_game _ _
           (attacked_of (board stray_king_game) BLACK));
    vm_compute; reflexivity.
Defined.

Lemma stray_king_short_preconditions :
  short_castling_preconditions stray_king_game.
Proof.
  apply (@castling_preconditions_test CBoard _ stray_king_game _ _
           (attacked_of (board stray_king_game) BLACK));
    vm_compute; reflexivity.
Defined.

(** A legal LONG_CASTLE move and the preconditions it implies. *)
Lemma castling_requires_preconditions_witness :
  get_legal_moves stray_king_game = Ok (legal_of stray_king_game) /\
  In (mkMove e1 (mkSquare 0 2) LONG_CASTLE) (legal_of stray_king_game) /\
  long_castling_preconditions stray_king_game.
Proof.
  assert (H : get_legal_moves stray_king_game = Ok (legal_of stray_king_game))
    by (vm_compute; reflexivity).
  assert (Hm : In (mkMove e1 (mkSquare 0 2) LONG_CASTLE)
                 (legal_of stray_king_game))
    by (vm_compute; tauto).
  split; [exact H |]. split; [exact Hm |].
  apply (proj1 (@castling_requires_preconditions CBoard _ _ stray_king_game
                  _ H) _ Hm).
  reflexivity.
Defined.

(** Black is mated in [mate_game]: White wins. *)
Lemma no_legal_moves_result_witness :
  get_legal_moves mate_game = Ok [] /\
  get_game_result mate_game = Ok (Some WHITE_WIN).
Proof.
  assert (H : get_legal_moves mate_game = Ok []) by (vm_compute; reflexivity).
  split; [exact H |].
  destruct (@no_legal_moves_result CBoard _ _ mate_game H)
    as [[_ R] | [C _]].
  - exact R.
  - vm_compute in C; discriminate C.
Defined.

(** The three long castling moves of [stray_king_game]. *)
Lemma castling_moves_offered_witness :
  get_legal_moves stray_king_game = Ok (legal_of stray_king_game) /\
  long_castling_preconditions stray_king_game /\
  filter is_long_castle (legal_of stray_king_game) =
    [mkMove e1 (mkSquare 0 0) LONG_CASTLE;
     mkMove e1 (mkSquare 0 1) LONG_CASTLE;
     mkMove e1 (mkSquare 0 2) LONG_CASTLE].
Proof.
  assert (H : get_legal_moves stray_king_game = Ok (legal_of stray_king_game))
    by (vm_compute; reflexivity).
  split; [exact H |]. split; [exact stray_king_long_preconditions |].
  exact (proj1 (@castling_moves_offered CBoard _ _ stray_king_game _ H)
           stray_king_long_preconditions).
Defined.

(** In [stray_king_game] the king's home square and both corners are empty,
    and all five castling moves are legal. *)
Lemma castling_ignores_home_squares_witness :
  getitem (board stray_king_game) e1 = None /\
  getitem (board stray_king_game) (mkSquare 0 0) = None /\
  getitem (board stray_king_game) (mkSquare 0 7) = None /\
  incl (long_castling_moves 0) (legal_of stray_king_game) /\
  incl (short_castling_moves 0) (legal_of stray_king_game).
Proof.
  assert (H : get_legal_moves stray_king_game = Ok (legal_of stray_king_game))
    by (vm_compute; reflexivity).
  assert (H4 : getitem (board stray_king_game)
                 (mkSquare (back_rank stray_king_game) 4) = None)
    by reflexivity.
  assert (H0 : getitem (board stray_king_game)
                 (mkSquare (back_rank stray_king_game) 0) = None)
    by reflexivity.
  assert (H7 : getitem (board stray_king_game)
                 (mkSquare (back_rank stray_king_game) 7) = None)
    by reflexivity.
  split; [exact H4 |]. split; [exact H0 |]. split; [exact H7 |].
  destruct (@castling_ignores_home_squares CBoard _ _ stray_king_game _
              _ _ _ H H4 H0 H7)
    as [Hl Hs].
  split; [exact (Hl stray_king_long_preconditions)
         | exact (Hs stray_king_short_preconditions)].
Defined.

(** The kings are needed: when Black has no piece at all, both sides meet
    the subset wording, while the code compares the empty type set of Black
    with {KING} and returns no result. *)
Example lone_king_not_insufficient :
  (exists l, get_legal_moves lone_king_game = Ok l /\ l <> []) /\
  insufficient_material_subset (board lone_king_game) WHITE /\
  insufficient_material_subset (board lone_king_game) BLACK /\
  get_game_result lone_king_game = Ok None /\
  get_game_result lone_king_game <> Ok (Some INSUFFICIENT_MATERIAL).
Proof.
  split; [exists (legal_of lone_king_game); split;
          [vm_compute; reflexivity | vm_compute; discriminate] |].
  split; [split; [vm_compute; lia | left; vm_compute; tauto] |].
  split; [split; [vm_compute; lia | left; vm_compute; tauto] |].
  split; [vm_compute; reflexivity | vm_compute; discriminate].
Qed.

(** King and bishop against king: both sides have insufficient material. *)
Lemma bishop_game_white_insufficient :
  insufficient_material_subset (board bishop_game) WHITE.
Proof.
  split; [vm_compute; lia |].
  right; right. intros t; vm_compute; tauto.
Defined.

Lemma bishop_game_black_insufficient :
  insufficient_material_subset (board bishop_game) BLACK.
Proof.
  split; [vm_compute; lia |].
  left. intros t; vm_compute; tauto.
Defined.

(** [bishop_game] has both kings and legal moves, and is drawn. *)
Lemma game_result_insufficient_material_witness :
  get_legal_moves bishop_game = Ok (legal_of bishop_game) /\
  legal_of bishop_game <> [] /\
  has_king (board bishop_game) WHITE /\
  has_king (board bishop_game) BLACK /\
  get_game_result bishop_game = Ok (Some INSUFFICIENT_MATERIAL).
Proof.
  assert (H : get_legal_moves bishop_game = Ok (legal_of bishop_game))
    by (vm_compute; reflexivity).
  assert (Hne : legal_of bishop_game <> []) by (vm_compute; discriminate).
  assert (Hw : has_king (board bishop_game) WHITE)
    by (exists e1; reflexivity).
  assert (Hb : has_king (board bishop_game) BLACK)
    by (exists (mkSquare 7 4); reflexivity).
  split; [exact H |]. split; [exact Hne |].
  split; [exact Hw |]. split; [exact Hb |].
  apply (proj1 (@game_result_insufficient_material CBoard _ _
                  c_board_contract bishop_game _ H Hne Hw Hb)).
  split; [exact bishop_game_white_insufficient
         | exact bishop_game_black_insufficient].
Defined.


(** The pawn on b7 promotes by capture on c8 and by push on b8. *)
Lemma pawn_moves_promotion_tag_witness :
  c_pawn_starting_row WHITE + 2 * c_pawn_direction WHITE
    <> c_pawn_end_row WHITE /\
  exists l,
    get_psuedo_legal_moves_for_piece (mkPiece WHITE PAWN) (mkSquare 6 1)
      (board promotion_game) None = Ok l /\
    In (mkMove (mkSquare 6 1) (mkSquare 7 2) PAWN_PROMOTION) l /\
    forall m, In m l -> row (end_ m) = 7 -> move_type m = PAWN_PROMOTION.
Proof.
  assert (Hgeo : c_pawn_starting_row WHITE + 2 * c_pawn_direction WHITE
                 <> c_pawn_end_row WHITE) by (vm_compute; discriminate).
  split; [exact Hgeo |].
  destruct (@pawn_moves_promotion_tag CBoard _ WHITE (mkSquare 6 1)
              (board promotion_game) None) as (l & Hl & _ & Htag).
  exists l; split; [exact Hl |]. split.
  - vm_compute in Hl. injection Hl as <-. left; reflexivity.
  - intros m Hm Hrow. exact (proj1 (Htag Hgeo m Hm) Hrow).
Defined.

(** The pawn on b7 attacks a8 and c8, not b8. *)
Lemma attacked_squares_characterised_witness :
  exists l,
    get_attacked_squares (board promotion_game) WHITE = Ok l /\
    In (mkSquare 7 0) l /\ In (mkSquare 7 2) l /\ ~ In (mkSquare 7 1) l.
Proof.
  destruct (@attacked_squares_characterised CBoard _ c_board_contract
              (board promotion_game) WHITE) as (l & Hl & _).
  exists l; split; [exact Hl |].
  vm_compute in Hl. injection Hl as <-.
  split; [simpl; tauto |]. split; [simpl; tauto |].
  simpl; intros H.
  repeat (destruct H as [H | H]; [discriminate H |]). exact H.
Defined.

(** The ray of the bishop on c1 towards b2 and a3 ends. *)
Lemma game_rules_terminate_witness :
  In (1, -1) (bishop_directions ++ rook_directions) /\
  exists l,
    get_ranged_piece_psuedo_legal_moves_in_direction (1, -1) (mkSquare 0 2)
      (get_empty_squares (board bishop_game))
      (get_squares_with_pieces (board bishop_game) BLACK) = Ok l.
Proof.
  assert (Hd : In (1, -1) (bishop_directions ++ rook_directions))
    by (simpl; tauto).
  split; [exact Hd |].
  destruct (proj1 (@game_rules_terminate CBoard _ _) (1, -1)
              (mkSquare 0 2) (get_empty_squares (board bishop_game))
              (get_squares_with_pieces (board bishop_game) BLACK) Hd)
    as (l & _ & Hl).
  exists l; exact Hl.
Defined.

(* ------------------------------------------------------------------ *)
(** * Further properties of the generators *)

(** ** The ray caster *)

Lemma ranged_loop_shape (d : Z * Z) (s : Square) (empty opp : list Square) :
  forall (fuel : nat) (steps : Z) (l : list Move),
    ranged_loop fuel d s empty opp steps = Some l ->
    exists j : nat,
      (forall k, (k < j)%nat ->
         In (ray_square d s (steps + Z.of_nat k)) empty) /\
      ~ In (ray_square d s (steps + Z.of_nat j)) empty /\
      l = map (fun k => Move2 s (ray_square d s (steps + Z.of_nat k)))
            (seq 0 j)
          ++ (if mem (ray_square d s (steps + Z.of_nat j)) opp
              then [Move2 s (ray_square d s (steps + Z.of_nat j))]
              else []).
Proof.
  induction fuel as [| fuel IH]; intros steps l H; [discriminate |].
  simpl in H.
  destruct (mem (ray_square d s steps) empty) eqn:He.
  - destruct (ranged_loop fuel d s empty opp (steps + 1)) as [rest |] eqn:E;
      [| discriminate].
    injection H as <-.
    destruct (IH _ _ E) as (j & Hin & Hout & ->).
    exists (S j).
    assert (Hshift : forall k, steps + 1 + Z.of_nat k = steps + Z.of_nat (S k))
      by (intros; lia).
    split; [| split].
    + intros [| k] Hk.
      * rewrite Z.add_0_r; apply mem_In; assumption.
      * rewrite <- Hshift; apply Hin; lia.
    + rewrite <- Hshift; assumption.
    + rewrite <- Hshift. cbn [seq map app]. rewrite Z.add_0_r. f_equal.
      f_equal. rewrite <- seq_shift, map_map.
      apply map_ext; intros k; rewrite Hshift; reflexivity.
  - exists O; rewrite Z.add_0_r.
    split; [intros k Hk; lia |].
    split; [apply mem_not_In; assumption |].
    destruct (mem (ray_square d s steps) opp); injection H as <-; reflexivity.
Qed.

(** X1.  A ray is the run of empty squares in front of the piece, in order,
    followed by the first non-empty square when that square is listed for
    the opponent: there is a [j] such that the squares of steps [1 .. j] are
    empty, the square of step [j + 1] is not, and the moves returned go to
    the squares of steps [1 .. j] and then, if it is an opponent square, to
    the square of step [j + 1]. *)
Theorem ray_stops_at_first_obstacle (d : Z * Z) (s : Square)
    (empty opp : list Square) (l : list Move) :
  get_ranged_piece_psuedo_legal_moves_in_direction d s empty opp = Ok l ->
  exists j : nat,
    (forall k, In k (steps_upto j) -> In (ray_square d s k) empty) /\
    ~ In (ray_square d s (Z.of_nat (S j))) empty /\
    l = map (fun k => Move2 s (ray_square d s k)) (steps_upto j)
        ++ (if mem (ray_square d s (Z.of_nat (S j))) opp
            then [Move2 s (ray_square d s (Z.of_nat (S j)))]
            else []).
Proof.
  unfold get_ranged_piece_psuedo_legal_moves_in_direction; intros H.
  destruct (ranged_loop _ d s empty opp 1) as [r |] eqn:E; [| discriminate].
  injection H as <-.
  destruct (ranged_loop_shape _ _ _ _ _ _ E) as (j & Hin & Hout & ->).
  assert (Hs : forall k : nat, 1 + Z.of_nat k = Z.of_nat (S k)) by (intros; lia).
  exists j; unfold steps_upto; rewrite <- Hs.
  split; [| split; [assumption |]].
  - intros k Hk. apply in_map_iff in Hk. destruct Hk as (n & <- & Hn).
    apply in_seq in Hn. destruct n as [| n]; [lia |].
    rewrite <- Hs; apply Hin; lia.
  - f_equal. rewrite <- seq_shift, !map_map.
    apply map_ext; intros k; rewrite Hs; reflexivity.
Qed.

Lemma ranged_moves_In (d : Z * Z) (s : Square) (empty opp : list Square)
    (l : list Move) (m : Move) :
  get_ranged_piece_psuedo_legal_moves_in_direction d s empty opp = Ok l ->
  In m l ->
  exists k : Z,
    1 <= k /\
    m = Move2 s (ray_square d s k) /\
    (forall i, 1 <= i < k -> In (ray_square d s i) empty) /\
    (In (ray_square d s k) empty \/ In (ray_square d s k) opp).
Proof.
  unfold get_ranged_piece_psuedo_legal_moves_in_direction; intros H Hm.
  destruct (ranged_loop _ d s empty opp 1) as [r |] eqn:E; [| discriminate].
  injection H as <-.
  destruct (ranged_loop_shape _ _ _ _ _ _ E) as (j & Hin & Hout & ->).
  assert (Hbefore : forall n : nat, (n <= j)%nat ->
            forall i, 1 <= i < 1 + Z.of_nat n -> In (ray_square d s i) empty).
  { intros n Hn i Hi.
    replace i with (1 + Z.of_nat (Z.to_nat (i - 1))) by lia.
    apply Hin; lia. }
  apply in_app_iff in Hm; destruct Hm as [Hm | Hm].
  - apply in_map_iff in Hm; destruct Hm as (n & <- & Hn).
    apply in_seq in Hn. exists (1 + Z.of_nat n).
    split; [lia |]. split; [reflexivity |].
    split; [apply Hbefore; lia | left; apply Hin; lia].
  - destruct (mem (ray_square d s (1 + Z.of_nat j)) opp) eqn:Ho;
      [| destruct Hm].
    destruct Hm as [<- | []]. exists (1 + Z.of_nat j).
    split; [lia |]. split; [reflexivity |].
    split; [apply Hbefore; lia | right; apply mem_In; assumption].
Qed.

Lemma sliding_moves_In (dirs : list (Z * Z)) (s : Square)
    (empty opp : list Square) (l : list Move) (m : Move) :
  sliding_moves dirs s empty opp = Ok l ->
  In m l ->
  exists (d : Z * Z) (k : Z),
    In d dirs /\ 1 <= k /\
    m = Move2 s (ray_square d s k) /\
    (forall i, 1 <= i < k -> In (ray_square d s i) empty) /\
    (In (ray_square d s k) empty \/ In (ray_square d s k) opp).
Proof.
  intros H Hm. apply (extend_each_In _ _ H) in Hm.
  destruct Hm as (d & ys & Hd & Hys & Hm).
  destruct (@ranged_moves_In _ _ _ _ _ _ Hys Hm) as (k & Hk).
  exists d, k; tauto.
Qed.

Lemma offset_moves_In (moves : list (Z * Z)) (s : Square)
    (available : list Square) (m : Move) :
  In m (offset_moves moves s available) ->
  start m = s /\ move_type m = ORDINARY /\ In (end_ m) available /\
  exists o, In o moves /\
            end_ m = mkSquare (row s + fst o) (column s + snd o).
Proof.
  unfold offset_moves; rewrite in_map_iff; intros (e & <- & He).
  apply filter_In in He; destruct He as [He Ha].
  apply in_map_iff in He; destruct He as (o & <- & Ho).
  cbn [start end_ move_type Move2].
  repeat split; [apply mem_In; assumption | eauto].
Qed.

Lemma In_with_en_passant (x : Square) (opp : list Square)
    (ep : option Square) :
  In x (opp ++ match ep with Some sq => [sq] | None => [] end) <->
  In x opp \/ ep = Some x.
Proof.
  rewrite in_app_iff; destruct ep as [e |]; simpl; split.
  - intros [H | [-> | []]]; auto.
  - intros [H | E]; [auto | injection E as ->; auto].
  - intros [H | []]; auto.
  - intros [H | E]; [auto | discriminate].
Qed.

(** ** The moves of one piece *)

Section PieceMoveProperties.

Context {Board : Type} {board_ops : BoardOps Board}.

(** The members of [pawn_moves]: a capture, the single push or the double
    push. *)
Lemma pawn_moves_In (c : PieceColor) (s : Square) (empty opp : list Square)
    (m : Move) :
  In m (pawn_moves c s empty opp) ->
  start m = s /\
  ((row (end_ m) = (row s + get_pawn_direction c) /\
    (column (end_ m) = column s - 1 \/ column (end_ m) = column s + 1) /\
    In (end_ m) opp /\ move_type m <> DOUBLE_PAWN_PUSH)
   \/
   (end_ m = mkSquare (row s + get_pawn_direction c) (column s) /\
    In (end_ m) empty /\ move_type m <> DOUBLE_PAWN_PUSH)
   \/
   (end_ m = mkSquare ((row s + get_pawn_direction c) + get_pawn_direction c) (column s) /\
    move_type m = DOUBLE_PAWN_PUSH /\
    row s = get_pawn_starting_row c /\
    In (mkSquare (row s + get_pawn_direction c) (column s)) empty /\
    In (end_ m) empty /\
    exists tag, In (mkMove s (mkSquare (row s + get_pawn_direction c) (column s)) tag)
                  (pawn_moves c s empty opp))).
Proof.
  set (fwd := row s + get_pawn_direction c).
  unfold pawn_moves. fold fwd.
  set (tag := if fwd =? get_pawn_end_row c then PAWN_PROMOTION else ORDINARY).
  assert (Htag : tag <> DOUBLE_PAWN_PUSH)
    by (unfold tag; destruct (fwd =? get_pawn_end_row c); discriminate).
  rewrite in_app_iff, in_map_iff; intros [(e & <- & He) | Hpush].
  - apply filter_In in He; destruct He as [He Ho]. apply mem_In in Ho.
    split; [reflexivity |]. left. cbn [end_ move_type].
    simpl in He; destruct He as [<- | [<- | []]]; cbn [row column]; auto.
  - destruct (mem (mkSquare fwd (column s)) empty) eqn:E1; [| destruct Hpush].
    apply mem_In in E1.
    destruct Hpush as [<- | Hdouble].
    + split; [reflexivity |]. right; left; cbn [end_ move_type]; auto.
    + destruct ((row s =? get_pawn_starting_row c)
                && mem (mkSquare (fwd + get_pawn_direction c) (column s)) empty)
        eqn:E2; [| destruct Hdouble].
      destruct Hdouble as [<- | []].
      apply andb_true_iff in E2; destruct E2 as [Er E2].
      apply Z.eqb_eq in Er; apply mem_In in E2.
      split; [reflexivity |]. right; right; cbn [end_ move_type].
      repeat (split; [auto; fail |]).
      exists tag. subst tag fwd. unfold pawn_moves; cbv zeta.
      apply in_app_iff; right.
      left; reflexivity.
Qed.

(** A pseudo-legal move starts on the square of the piece and ends on an
    empty square, on a square listed for the opponent, or on the en-passant
    target. *)
Lemma moves_for_piece_start_end (p : Piece) (s : Square) (b : Board)
    (ep : option Square) (l : list Move) (m : Move) :
  get_psuedo_legal_moves_for_piece p s b ep = Ok l ->
  In m l ->
  start m = s /\
  (In (end_ m) (get_empty_squares b) \/
   In (end_ m) (get_squares_with_pieces b (opposing_color (color p))) \/
   ep = Some (end_ m)).
Proof.
  rewrite moves_for_piece_cases; cbv zeta.
  assert (Hoff : forall table,
            In m (offset_moves table s
                    (get_empty_squares b ++
                     get_squares_with_pieces b (opposing_color (color p)) ++
                     match ep with Some sq => [sq] | None => [] end)) ->
            start m = s /\
            (In (end_ m) (get_empty_squares b) \/
             In (end_ m) (get_squares_with_pieces b (opposing_color (color p)))
             \/ ep = Some (end_ m))).
  { intros table Hm. apply offset_moves_In in Hm.
    destruct Hm as (Hs & _ & Ha & _). split; [assumption |].
    apply in_app_iff in Ha. rewrite In_with_en_passant in Ha. tauto. }
  assert (Hslide : forall dirs e r,
            sliding_moves dirs s (get_empty_squares b)
              (get_squares_with_pieces b (opposing_color (color p)) ++
               match e with Some sq => [sq] | None => [] end) = Ok r ->
            In m r ->
            start m = s /\
            (In (end_ m) (get_empty_squares b) \/
             In (end_ m) (get_squares_with_pieces b (opposing_color (color p)))
             \/ e = Some (end_ m))).
  { intros dirs e r Hr Hm.
    destruct (@sliding_moves_In _ _ _ _ _ _ Hr Hm) as (d & k & _ & _ & -> & _ & Ha).
    cbn [start end_ Move2]. split; [reflexivity |].
    rewrite In_with_en_passant in Ha. tauto. }
  destruct (type p); intros H Hm.
  - injection H as <-. apply pawn_moves_In in Hm.
    destruct Hm as [Hs Hm]. split; [assumption |].
    destruct Hm as [(_ & _ & Ho & _) | [(_ & He & _) | (_ & _ & _ & _ & He & _)]];
      [rewrite In_with_en_passant in Ho |..]; tauto.
  - injection H as <-; eauto.
  - eauto.
  - eauto.
  - inv_bind H. inv_bind H. injection H as <-.
    apply in_app_iff in Hm.
    destruct Hm as [Hm | Hm].
    + destruct (Hslide _ None _ Hv Hm) as [Hs [He | [He | He]]];
        [auto | auto | discriminate].
    + destruct (Hslide _ None _ Hv0 Hm) as [Hs [He | [He | He]]];
        [auto | auto | discriminate].
  - injection H as <-; eauto.
Qed.

(** X3.  A bishop, rook or queen never jumps: each of its moves ends on a
    square of a ray along one of its directions, and every square of that
    ray before the end square is empty. *)
Theorem sliding_piece_never_jumps (p : Piece) (s : Square) (b : Board)
    (ep : option Square) (l : list Move) (m : Move) :
  get_psuedo_legal_moves_for_piece p s b ep = Ok l ->
  In m l ->
  sliding_directions (type p) <> [] ->
  exists (d : Z * Z) (k : Z),
    In d (sliding_directions (type p)) /\
    1 <= k /\
    end_ m = ray_square d s k /\
    forall i, 1 <= i < k -> In (ray_square d s i) (get_empty_squares b).
Proof.
  rewrite moves_for_piece_cases; cbv zeta.
  assert (Hslide : forall dirs opp r,
            sliding_moves dirs s (get_empty_squares b) opp = Ok r ->
            In m r ->
            exists (d : Z * Z) (k : Z),
              In d dirs /\ 1 <= k /\ end_ m = ray_square d s k /\
              forall i, 1 <= i < k ->
                In (ray_square d s i) (get_empty_squares b)).
  { intros dirs opp r Hr Hm.
    destruct (@sliding_moves_In _ _ _ _ _ _ Hr Hm)
      as (d & k & Hd & Hk & -> & Hfree & _).
    exists d, k; auto. }
  destruct (type p); cbn [sliding_directions]; intros H Hm Hne;
    try congruence; eauto.
  inv_bind H. inv_bind H. injection H as <-.
  apply in_app_iff in Hm.
  destruct Hm as [Hm | Hm];
    [destruct (Hslide _ _ _ Hv Hm) as (d & k & Hd & Hrest)
    | destruct (Hslide _ _ _ Hv0 Hm) as (d & k & Hd & Hrest)];
    exists d, k; (split; [apply in_app_iff; auto | assumption]).
Qed.

(** X5.  A pawn moves straight only onto empty squares and diagonally only
    onto the two neighbouring columns of the next row, there onto a square
    listed for the opponent or the en-passant target.  A double push
    requires the pawn on its starting row, an empty square in between, and
    comes together with the single push. *)
Theorem pawn_pushes_and_captures (c : PieceColor) (s : Square) (b : Board)
    (ep : option Square) (l : list Move) (m : Move) :
  get_psuedo_legal_moves_for_piece (mkPiece c PAWN) s b ep = Ok l ->
  In m l ->
  (column (end_ m) = column s -> In (end_ m) (get_empty_squares b)) /\
  (column (end_ m) <> column s ->
   row (end_ m) = row s + get_pawn_direction c /\
   (column (end_ m) = column s - 1 \/ column (end_ m) = column s + 1) /\
   (In (end_ m) (get_squares_with_pieces b (opposing_color c)) \/
    ep = Some (end_ m))) /\
  (move_type m = DOUBLE_PAWN_PUSH ->
   row s = get_pawn_starting_row c /\
   end_ m = mkSquare (row s + get_pawn_direction c + get_pawn_direction c)
              (column s) /\
   In (mkSquare (row s + get_pawn_direction c) (column s))
     (get_empty_squares b) /\
   exists tag,
     In (mkMove s (mkSquare (row s + get_pawn_direction c) (column s)) tag) l).
Proof.
  rewrite moves_for_piece_cases; cbn [type color]; cbv zeta.
  intros H Hm. injection H as <-.
  apply pawn_moves_In in Hm.
  destruct Hm as [Hs [(Hr & Hc & Ho & Ht) | [(He & Hin & Ht) | Hd]]].
  - rewrite In_with_en_passant in Ho.
    split; [intros E; lia |]. split; [auto | contradiction].
  - split; [auto |].
    split; [rewrite He; cbn [column]; congruence | contradiction].
  - destruct Hd as (He & Ht & Hrow & Hmid & Hin & Hsingle).
    split; [auto |].
    split; [rewrite He; cbn [column]; congruence | auto].
Qed.

End PieceMoveProperties.

(** ** The offset tables *)

Lemma knight_offsets (dr dc : Z) :
  In (dr, dc) knight_moves <-> dr * dr + dc * dc = 5.
Proof.
  unfold knight_moves; simpl; split.
  - intros H; repeat (destruct H as [H | H]; [injection H as <- <-; reflexivity |]).
    destruct H.
  - intros H.
    assert (Hr : dr = -2 \/ dr = -1 \/ dr = 0 \/ dr = 1 \/ dr = 2) by nia.
    assert (Hc : dc = -2 \/ dc = -1 \/ dc = 0 \/ dc = 1 \/ dc = 2) by nia.
    destruct Hr as [-> | [-> | [-> | [-> | ->]]]];
      destruct Hc as [-> | [-> | [-> | [-> | ->]]]];
      try discriminate H; tauto.
Qed.

Lemma king_offsets (dr dc : Z) :
  In (dr, dc) king_moves <-> Z.max (Z.abs dr) (Z.abs dc) = 1.
Proof.
  unfold king_moves; simpl; split.
  - intros H; repeat (destruct H as [H | H]; [injection H as <- <-; reflexivity |]).
    destruct H.
  - intros H.
    assert (Hr : dr = -1 \/ dr = 0 \/ dr = 1) by lia.
    assert (Hc : dc = -1 \/ dc = 0 \/ dc = 1) by lia.
    destruct Hr as [-> | [-> | ->]]; destruct Hc as [-> | [-> | ->]];
      try discriminate H; tauto.
Qed.

(** The moves of an offset table, by the geometry [shape] of the table. *)
Lemma offset_moves_characterised (table : list (Z * Z)) (shape : Z -> Z -> Prop)
    (s : Square) (available : list Square) (m : Move) :
  (forall dr dc, In (dr, dc) table <-> shape dr dc) ->
  (In m (offset_moves table s available) <->
   start m = s /\ move_type m = ORDINARY /\ In (end_ m) available /\
   shape (row (end_ m) - row s) (column (end_ m) - column s)).
Proof.
  intros Hshape; split.
  - intros H; apply offset_moves_In in H.
    destruct H as (Hs & Ht & Ha & (o & Ho & He)).
    repeat (split; [assumption |]).
    destruct o as [dr dc]; apply Hshape in Ho.
    rewrite He; cbn [row column fst snd].
    replace (row s + dr - row s) with dr by lia.
    replace (column s + dc - column s) with dc by lia. assumption.
  - intros (Hs & Ht & Ha & Hg).
    destruct m as [ms me mt]; cbn [start end_ move_type] in *; subst ms mt.
    unfold offset_moves. apply (in_map (Move2 s)).
    apply filter_In; split; [| apply mem_In; assumption].
    apply in_map_iff.
    exists (row me - row s, column me - column s); split.
    + destruct me as [r c]; cbn [row column fst snd]; f_equal; lia.
    + apply Hshape; assumption.
Qed.

Lemma mem_app (x : Square) (a b : list Square) :
  mem x (a ++ b) = mem x a || mem x b.
Proof. unfold mem; apply existsb_app. Qed.

(** An en-passant target that is an empty square adds nothing to the
    squares a non-pawn piece may go to. *)
Lemma mem_en_passant_inert (x e : Square) (empty opp : list Square) :
  In e empty ->
  mem x (empty ++ opp ++ [e]) = mem x (empty ++ opp ++ []).
Proof.
  intros He; rewrite !mem_app.
  destruct (mem x empty) eqn:Hx; [reflexivity |]; simpl.
  assert (Hne : square_eqb x e = false).
  { destruct (square_eqb x e) eqn:E; [| reflexivity].
    apply square_eqb_eq in E; subst.
    apply mem_not_In in Hx; contradiction. }
  rewrite Hne; reflexivity.
Qed.

Lemma ranged_loop_en_passant_inert (d : Z * Z) (s e : Square)
    (empty opp : list Square) :
  In e empty ->
  forall (fuel : nat) (steps : Z),
    ranged_loop fuel d s empty (opp ++ [e]) steps =
    ranged_loop fuel d s empty (opp ++ []) steps.
Proof.
  intros He; induction fuel as [| fuel IH]; intros steps; [reflexivity |].
  simpl. rewrite IH.
  destruct (mem (ray_square d s steps) empty) eqn:Hx; [reflexivity |].
  assert (E := @mem_en_passant_inert (ray_square d s steps) e empty opp He).
  rewrite (mem_app _ empty (opp ++ [e])), (mem_app _ empty (opp ++ [])), Hx
    in E.
  cbn [orb] in E. rewrite E; reflexivity.
Qed.

Lemma extend_each_ext {A B : Type} (f g : A -> outcome (list B)) (xs : list A) :
  (forall x, f x = g x) -> extend_each f xs = extend_each g xs.
Proof.
  intros H; induction xs as [| x xs IH]; simpl; [reflexivity |].
  rewrite H, IH; reflexivity.
Qed.

Section OffsetsAndEnPassant.

Context {Board : Type} {board_ops : BoardOps Board}.

(** X6.  The moves of a knight are exactly the ORDINARY moves from its
    square to the squares at squared distance 5 (one row and two columns
    away, or two rows and one column) that are empty, listed for the
    opponent, or the en-passant target. *)
Theorem knight_moves_characterised (c : PieceColor) (s : Square) (b : Board)
    (ep : option Square) (l : list Move) :
  get_psuedo_legal_moves_for_piece (mkPiece c KNIGHT) s b ep = Ok l ->
  forall m, In m l <->
    start m = s /\ move_type m = ORDINARY /\
    (In (end_ m) (get_empty_squares b) \/
     In (end_ m) (get_squares_with_pieces b (opposing_color c)) \/
     ep = Some (end_ m)) /\
    (row (end_ m) - row s) * (row (end_ m) - row s)
    + (column (end_ m) - column s) * (column (end_ m) - column s) = 5.
Proof.
  rewrite moves_for_piece_cases; cbn [type color]; cbv zeta.
  intros H m; injection H as <-.
  rewrite (@offset_moves_characterised knight_moves
             (fun dr dc => dr * dr + dc * dc = 5) s _ m knight_offsets).
  rewrite in_app_iff, In_with_en_passant. tauto.
Qed.

(** X7.  The moves of a king are exactly the ORDINARY moves from its square
    to the eight neighbouring squares that are empty, listed for the
    opponent, or the en-passant target. *)
Theorem king_moves_characterised (c : PieceColor) (s : Square) (b : Board)
    (ep : option Square) (l : list Move) :
  get_psuedo_legal_moves_for_piece (mkPiece c KING) s b ep = Ok l ->
  forall m, In m l <->
    start m = s /\ move_type m = ORDINARY /\
    (In (end_ m) (get_empty_squares b) \/
     In (end_ m) (get_squares_with_pieces b (opposing_color c)) \/
     ep = Some (end_ m)) /\
    Z.max (Z.abs (row (end_ m) - row s))
          (Z.abs (column (end_ m) - column s)) = 1.
Proof.
  rewrite moves_for_piece_cases; cbn [type color]; cbv zeta.
  intros H m; injection H as <-.
  rewrite (@offset_moves_characterised king_moves
             (fun dr dc => Z.max (Z.abs dr) (Z.abs dc) = 1) s _ m king_offsets).
  rewrite in_app_iff, In_with_en_passant. tauto.
Qed.

(** X8.  An en-passant target that is one of the empty squares changes the
    moves of no piece other than a pawn. *)
Theorem en_passant_only_matters_to_pawns (p : Piece) (s e : Square)
    (b : Board) :
  type p <> PAWN ->
  In e (get_empty_squares b) ->
  get_psuedo_legal_moves_for_piece p s b (Some e) =
  get_psuedo_legal_moves_for_piece p s b None.
Proof.
  intros Hp He. rewrite !moves_for_piece_cases; cbv zeta.
  assert (Hoff : forall table opp,
            offset_moves table s (get_empty_squares b ++ opp ++ [e]) =
            offset_moves table s (get_empty_squares b ++ opp ++ [])).
  { intros table opp; unfold offset_moves; f_equal.
    apply filter_ext; intros x; apply mem_en_passant_inert; assumption. }
  assert (Hslide : forall dirs opp,
            sliding_moves dirs s (get_empty_squares b) (opp ++ [e]) =
            sliding_moves dirs s (get_empty_squares b) (opp ++ [])).
  { intros dirs opp; apply extend_each_ext; intros d.
    unfold get_ranged_piece_psuedo_legal_moves_in_direction.
    rewrite ranged_loop_en_passant_inert; [reflexivity | assumption]. }
  destruct (type p); try congruence;
    rewrite ?Hoff, ?Hslide; reflexivity.
Qed.

End OffsetsAndEnPassant.

(** ** Legal moves, check and result *)

Section RulesProperties.

Context {Board : Type} {board_ops : BoardOps Board} {game_ops : GameOps Board}.

(** X2.  Every legal move is either a castling move, which starts on column
    4 of the back rank and ends on that rank, or a move that starts on a
    square listed for the side to move, whose piece it moves onto an empty
    square, a square listed for the opponent of that piece, or the
    en-passant target of the game, and after which [is_check] is false. *)
Theorem legal_moves_origin (g : Game Board) (l : list Move) (m : Move) :
  get_legal_moves g = Ok l ->
  In m l ->
  ((move_type m = LONG_CASTLE \/ move_type m = SHORT_CASTLE) /\
   start m = mkSquare (back_rank g) 4 /\
   row (end_ m) = back_rank g)
  \/
  (move_type m <> LONG_CASTLE /\ move_type m <> SHORT_CASTLE /\
   In (start m) (get_squares_with_pieces (board g) (turn g)) /\
   (exists p, getitem (board g) (start m) = Some p /\
      (In (end_ m) (get_empty_squares (board g)) \/
       In (end_ m) (get_squares_with_pieces (board g)
                      (opposing_color (color p))) \/
       en_passant g = Some (end_ m))) /\
   is_check (simulate_move g m) (turn g) = Ok false).
Proof.
  intros H Hm.
  destruct (get_legal_moves_cases g H)
    as (pseudo & legal & castling & Hp & Hc & -> & Hlegal).
  apply in_app_iff in Hm; destruct Hm as [Hm | Hm].
  - right. apply Hlegal in Hm; destruct Hm as [Hm Hsafe].
    destruct (get_psuedo_legal_moves_not_castle g _ Hp Hm) as [Hl Hs].
    split; [assumption |]. split; [assumption |].
    apply (extend_each_In _ _ Hp) in Hm.
    destruct Hm as (sq & ys & Hsq & Hys & Hm).
    destruct (getitem (board g) sq) as [p |] eqn:Hget; [| discriminate].
    destruct (@moves_for_piece_start_end _ _ _ _ _ _ _ _ Hys Hm) as [Hstart Hend].
    rewrite Hstart. split; [assumption |]. split; [| assumption].
    exists p; split; assumption.
  - left.
    destruct (get_castling_moves_cases g Hc)
      as [[_ ->] | (_ & att & _ & ->)]; [destruct Hm |].
    apply in_app_iff in Hm.
    destruct Hm as [Hm | Hm];
      match type of Hm with
      | In _ (if ?t then _ else _) => destruct t; [| destruct Hm]
      end;
      simpl in Hm;
      repeat (destruct Hm as [<- | Hm]; [cbn; auto |]); destruct Hm.
Qed.

Lemma scan_without_king (b : Board) (squares : list Square) :
  (forall sq q, In sq squares -> getitem b sq = Some q -> type q <> KING) ->
  forall acc : option Square,
    fold_left
      (fun king_square square =>
         match getitem b square with
         | Some piece =>
             if type_eqb (type piece) KING then Some square else king_square
         | None => king_square
         end) squares acc = acc.
Proof.
  induction squares as [| sq rest IH]; intros H acc; [reflexivity |].
  simpl. rewrite IH; [| intros; eapply H; simpl; eauto].
  destruct (getitem b sq) as [q |] eqn:Hq; [| reflexivity].
  destruct (type_eqb (type q) KING) eqn:Ht; [| reflexivity].
  apply type_eqb_eq in Ht. exfalso; apply (H sq q); simpl; auto.
Qed.

(** X10.  When several squares listed for a color hold a KING, [is_check]
    answers for the one listed last: the other kings may be attacked
    without [is_check] reporting it. *)
Theorem is_check_uses_last_king (b : Board) (c : PieceColor)
    (before after : list Square) (k : Square) (p : Piece)
    (attacked : list Square) :
  get_squares_with_pieces b c = before ++ k :: after ->
  getitem b k = Some p ->
  type p = KING ->
  (forall sq q, In sq after -> getitem b sq = Some q -> type q <> KING) ->
  get_attacked_squares b (opposing_color c) = Ok attacked ->
  is_check b c = Ok (mem k attacked).
Proof.
  intros Hl Hk Ht Hafter Hatt.
  unfold is_check; rewrite Hatt; cbn [bind].
  unfold find_king; rewrite Hl, fold_left_app; cbn [fold_left].
  rewrite Hk, Ht; cbn [type_eqb].
  rewrite (scan_without_king b after Hafter); reflexivity.
Qed.

(** X11.  What each answer of [get_game_result] tells: a win is only
    reported against the side to move, when it has no legal move and is in
    check; STALEMATE when it has no legal move and is not in check;
    INSUFFICIENT_MATERIAL and no result only when there is a legal move, so
    that mate and stalemate take precedence over insufficient material. *)
Theorem game_result_inversion (g : Game Board) (r : option Result) :
  get_game_result g = Ok r ->
  match r with
  | Some WHITE_WIN =>
      turn g = BLACK /\ get_legal_moves g = Ok [] /\
      is_check (board g) (turn g) = Ok true
  | Some BLACK_WIN =>
      turn g = WHITE /\ get_legal_moves g = Ok [] /\
      is_check (board g) (turn g) = Ok true
  | Some STALEMATE =>
      get_legal_moves g = Ok [] /\ is_check (board g) (turn g) = Ok false
  | Some INSUFFICIENT_MATERIAL =>
      (exists l, get_legal_moves g = Ok l /\ l <> []) /\
      is_insufficient_material (pieces_of (board g) WHITE) = Ok true /\
      is_insufficient_material (pieces_of (board g) BLACK) = Ok true
  | None =>
      exists l, get_legal_moves g = Ok l /\ l <> []
  end.
Proof.
  unfold get_game_result; intros H.
  inv_bind H. destruct v as [| m l]; cbn [length Nat.eqb] in H.
  - inv_bind H. destruct v.
    + injection H as <-. destruct (turn g); cbn [color_eqb]; auto.
    + injection H as <-; auto.
  - assert (Hne : exists l', get_legal_moves g = Ok l' /\ l' <> [])
      by (exists (m :: l); split; [assumption | discriminate]).
    inv_bind H. destruct v.
    + inv_bind H. destruct v; injection H as <-; auto.
    + injection H as <-; assumption.
Qed.

(** X12.  On a board whose empty squares and piece squares are all valid,
    every attacked square is a valid square. *)
Theorem attacked_squares_are_valid (b : Board) (c : PieceColor)
    (attacked : list Square) :
  (forall sq, In sq (get_empty_squares b) -> is_valid sq = true) ->
  (forall c' sq, In sq (get_squares_with_pieces b c') -> is_valid sq = true) ->
  get_attacked_squares b c = Ok attacked ->
  forall x, In x attacked -> is_valid x = true.
Proof.
  intros Hempty Hpieces H x Hx.
  apply (extend_each_In _ _ H) in Hx.
  destruct Hx as (sq & ys & _ & Hys & Hx).
  unfold attacked_from in Hys.
  destruct (getitem b sq) as [p |]; [| discriminate].
  assert (Hmoves : forall ms,
            get_psuedo_legal_moves_for_piece p sq b None = Ok ms ->
            In x (map end_ ms) -> is_valid x = true).
  { intros ms Hms Hin. apply in_map_iff in Hin.
    destruct Hin as (m & <- & Hm).
    destruct (@moves_for_piece_start_end _ _ _ _ _ _ _ _ Hms Hm)
      as [_ [He | [He | He]]]; [eauto | eauto | discriminate]. }
  destruct (type p);
    try (inv_bind Hys; injection Hys as <-; eauto; fail).
  replace ys with (filter is_valid (pawn_capture_squares (color p) sq)) in Hx
    by congruence.
  apply filter_In in Hx; tauto.
Qed.

End RulesProperties.

Section ContractProperties.

Context {Board : Type} {board_ops : BoardOps Board}
        {contract : BoardContract Board}.

(** X13.  The two places that know how a pawn captures agree: when a pawn
    stands on the board, each of its pseudo-legal diagonal moves onto a
    valid square ends on a square that [__get_attacked_squares] lists for
    its color. *)
Theorem pawn_captures_are_attacks (b : Board) (c : PieceColor) (s : Square)
    (ep : option Square) (l : list Move) (m : Move) :
  getitem b s = Some (mkPiece c PAWN) ->
  get_psuedo_legal_moves_for_piece (mkPiece c PAWN) s b ep = Ok l ->
  In m l ->
  column (end_ m) <> column s ->
  is_valid (end_ m) = true ->
  exists attacked,
    get_attacked_squares b c = Ok attacked /\ In (end_ m) attacked.
Proof.
  intros Hget Hl Hm Hcol Hvalid.
  destruct (get_attacked_squares_Ok b c) as [att Hatt].
  exists att; split; [assumption |].
  apply (extend_each_In _ _ Hatt).
  exists s, (filter is_valid (pawn_capture_squares c s)).
  split; [apply squares_with_pieces_lookup; eauto |].
  split; [unfold attacked_from; rewrite Hget; reflexivity |].
  apply filter_In; split; [| assumption].
  rewrite moves_for_piece_cases in Hl; cbn [type color] in Hl; cbv zeta in Hl.
  injection Hl as <-. apply pawn_moves_In in Hm.
  destruct Hm as [_ [(Hr & Hc & _) | [(He & _) | (He & _)]]];
    [| rewrite He in Hcol; cbn [column] in Hcol; congruence ..].
  unfold pawn_capture_squares; cbv zeta.
  destruct (end_ m) as [er ec]; cbn [row column] in *; subst er.
  destruct Hc as [-> | ->]; simpl; auto.
Qed.

End ContractProperties.

(** ** Material *)

Lemma types_of_Some (ps : list Piece) :
  types_of (map Some ps) = Ok (map type ps).
Proof.
  induction ps as [| p ps IH]; simpl; [reflexivity |].
  rewrite IH; reflexivity.
Qed.

(** X14.  [__is_insufficient_material] answers [True] exactly for a lone
    king, two kings, and a king with one knight or one bishop in either
    order.  It answers [False] for the empty list and for every list of
    more than two entries, there without looking at the entries; a missing
    piece among at most two entries makes it raise. *)
Theorem is_insufficient_material_table :
  (forall pieces : list (option Piece),
     (2 < length pieces)%nat -> is_insufficient_material pieces = Ok false) /\
  (forall ps : list Piece,
     exists v, is_insufficient_material (map Some ps) = Ok v /\
               (v = true <-> In (map type ps) insufficient_type_lists)) /\
  (forall pieces : list (option Piece),
     (length pieces <= 2)%nat -> In None pieces ->
     is_insufficient_material pieces = Raise AttributeError).
Proof.
  split; [| split].
  - intros pieces H; unfold is_insufficient_material.
    apply Nat.ltb_lt in H; rewrite H; reflexivity.
  - intros ps; unfold is_insufficient_material.
    rewrite length_map, types_of_Some; cbn [bind].
    destruct ps as [| [c1 t1] [| [c2 t2] [| p3 rest]]].
    + eexists; split; [reflexivity |].
      vm_compute; split; [discriminate | intuition discriminate].
    + destruct t1; eexists; (split; [reflexivity |]);
        vm_compute; split; intros H; try discriminate H; auto;
        repeat (destruct H as [H | H]; [discriminate H |]); destruct H.
    + destruct t1, t2; eexists; (split; [reflexivity |]);
        vm_compute; split; intros H; try discriminate H; auto 10;
        repeat (destruct H as [H | H]; [discriminate H |]); destruct H.
    + eexists; split; [reflexivity |].
      split; [discriminate |].
      unfold insufficient_type_lists; simpl; intuition discriminate.
  - intros pieces Hlen Hnone; unfold is_insufficient_material.
    assert (E : (2 <? length pieces)%nat = false) by (apply Nat.ltb_ge; lia).
    rewrite E.
    destruct pieces as [| [p1 |] [| [p2 |] [| p3 rest]]];
      simpl in Hlen, Hnone; try lia; try reflexivity;
      intuition discriminate.
Qed.

(** ** Squares *)

(** X15.  [Square.__eq__] is an equivalence relation that holds exactly
    between squares of equal row and equal column, and squares that are
    equal have equal hashes, whatever the hash of a pair of integers is. *)
Theorem square_eq_and_hash :
  (forall a, square_eqb a a = true) /\
  (forall a b, square_eqb a b = square_eqb b a) /\
  (forall a b c,
     square_eqb a b = true -> square_eqb b c = true -> square_eqb a c = true) /\
  (forall a b,
     square_eqb a b = true <-> row a = row b /\ column a = column b) /\
  (forall (tuple_hash : Z * Z -> Z) a b,
     square_eqb a b = true ->
     square_hash tuple_hash a = square_hash tuple_hash b).
Proof.
  split; [apply square_eqb_refl |].
  split; [intros a b; unfold square_eqb;
          rewrite (Z.eqb_sym (row a)), (Z.eqb_sym (column a)); reflexivity |].
  split; [intros a b c Hab Hbc; apply square_eqb_eq in Hab;
          apply square_eqb_eq in Hbc; apply square_eqb_eq; congruence |].
  split.
  - intros a b; unfold square_eqb.
    rewrite andb_true_iff, !Z.eqb_eq; reflexivity.
  - intros h a b Hab; apply square_eqb_eq in Hab; subst; reflexivity.
Qed.

(** ** Bounds *)

Lemma ray_square_origin (d : Z * Z) (s : Square) : ray_square d s 0 = s.
Proof.
  destruct s; unfold ray_square; cbn [row column].
  rewrite !Z.mul_0_r, !Z.add_0_r; reflexivity.
Qed.

Lemma ray_square_valid_bound (d : Z * Z) (s : Square) (n : Z) :
  d <> (0, 0) -> 0 <= n ->
  is_valid s = true -> is_valid (ray_square d s n) = true -> n <= 7.
Proof.
  destruct d as [dr dc], s as [r c]; unfold is_valid, ray_square.
  cbn [row column fst snd]; intros Hd Hn Hs Hv.
  rewrite !andb_true_iff, !Z.leb_le, !Z.ltb_lt in Hs, Hv.
  destruct (Z.eq_dec dr 0) as [-> | Hr].
  - destruct (Z.eq_dec dc 0) as [-> | Hc]; [congruence |]. nia.
  - nia.
Qed.

(** X16.  On the 8x8 board a ray has at most seven moves: when the start
    square and all listed squares are valid and the direction is not the
    null offset, the list returned has length at most 7. *)
Theorem ray_has_at_most_seven_moves (d : Z * Z) (s : Square)
    (empty opp : list Square) (l : list Move) :
  get_ranged_piece_psuedo_legal_moves_in_direction d s empty opp = Ok l ->
  d <> (0, 0) ->
  is_valid s = true ->
  (forall x, In x empty -> is_valid x = true) ->
  (forall x, In x opp -> is_valid x = true) ->
  (length l <= 7)%nat.
Proof.
  unfold get_ranged_piece_psuedo_legal_moves_in_direction.
  intros H Hd Hs Hempty Hopp.
  destruct (ranged_loop _ d s empty opp 1) as [r |] eqn:E; [| discriminate].
  injection H as <-.
  destruct (ranged_loop_shape _ _ _ _ _ _ E) as (j & Hin & _ & ->).
  rewrite length_app, length_map, length_seq.
  destruct (mem (ray_square d s (1 + Z.of_nat j)) opp) eqn:Ho.
  - apply mem_In in Ho. cbn [length].
    assert (1 + Z.of_nat j <= 7); [| lia].
    apply (@ray_square_valid_bound d s); auto; lia.
  - cbn [length]. destruct j as [| j]; [lia |].
    assert (1 + Z.of_nat j <= 7); [| lia].
    apply (@ray_square_valid_bound d s); auto; try lia;
      apply Hempty, Hin; lia.
Qed.

Section NoNullMove.

Context {Board : Type} {board_ops : BoardOps Board}.

(** X17.  No piece is given a move onto its own square, provided a pawn of
    its color has a non-zero direction. *)
Theorem no_move_to_the_start_square (p : Piece) (s : Square) (b : Board)
    (ep : option Square) (l : list Move) (m : Move) :
  get_pawn_direction (color p) <> 0 ->
  get_psuedo_legal_moves_for_piece p s b ep = Ok l ->
  In m l ->
  end_ m <> s.
Proof.
  intros Hdir. rewrite moves_for_piece_cases; cbv zeta.
  assert (Hslide : forall dirs opp r,
            (forall d, In d dirs -> d <> (0, 0)) ->
            sliding_moves dirs s (get_empty_squares b) opp = Ok r ->
            In m r -> end_ m <> s).
  { intros dirs opp r Hnz Hr Hm.
    destruct (@sliding_moves_In _ _ _ _ _ _ Hr Hm)
      as (d & k & Hd & Hk & -> & _).
    cbn [end_ Move2]. intros E.
    rewrite <- (ray_square_origin d s) in E at 2.
    apply ray_square_inj in E; [lia | auto]. }
  destruct (type p); intros H Hm.
  - injection H as <-. apply pawn_moves_In in Hm.
    destruct Hm as [_ [(_ & Hc & _) | [(He & _) | (He & _)]]].
    + intros E; rewrite E in Hc; lia.
    + rewrite He; destruct s as [r c]; cbn [row column].
      intros E; injection E as E; lia.
    + rewrite He; destruct s as [r c]; cbn [row column].
      intros E; injection E as E; lia.
  - injection H as <-.
    apply (@offset_moves_characterised knight_moves
             (fun dr dc => dr * dr + dc * dc = 5) s _ m knight_offsets) in Hm.
    destruct Hm as (_ & _ & _ & Hg). intros E; rewrite E in Hg; lia.
  - exact (Hslide _ _ _ bishop_directions_nonzero H Hm).
  - exact (Hslide _ _ _ rook_directions_nonzero H Hm).
  - inv_bind H. inv_bind H. injection H as <-.
    apply in_app_iff in Hm; destruct Hm as [Hm | Hm].
    + exact (Hslide _ _ _ bishop_directions_nonzero Hv Hm).
    + exact (Hslide _ _ _ rook_directions_nonzero Hv0 Hm).
  - injection H as <-.
    apply (@offset_moves_characterised king_moves
             (fun dr dc => Z.max (Z.abs dr) (Z.abs dc) = 1) s _ m king_offsets)
      in Hm.
    destruct Hm as (_ & _ & _ & Hg). intros E; rewrite E in Hg; lia.
Qed.

End NoNullMove.

(* ------------------------------------------------------------------ *)
(** * The further properties on concrete positions *)

Import MoreGames.

Lemma c_empty_squares_valid (b : CBoard) (sq : Square) :
  In sq (get_empty_squares b) -> is_valid sq = true.
Proof.
  simpl; unfold c_get_empty_squares; intros H.
  apply filter_In in H; apply all_squares_valid; tauto.
Qed.

Lemma c_piece_squares_valid (b : CBoard) (c : PieceColor) (sq : Square) :
  In sq (get_squares_with_pieces b c) -> is_valid sq = true.
Proof.
  simpl; unfold c_get_squares_with_pieces; intros H.
  apply filter_In in H; apply all_squares_valid; tauto.
Qed.

(** The ray of the bishop on c1 towards a3: two empty squares, then the
    edge of the board. *)
Lemma ray_stops_at_first_obstacle_witness :
  get_ranged_piece_psuedo_legal_moves_in_direction (1, -1) c1
    (get_empty_squares (board bishop_game))
    (get_squares_with_pieces (board bishop_game) BLACK)
  = Ok [Move2 c1 (mkSquare 1 1); Move2 c1 (mkSquare 2 0)] /\
  exists j : nat,
    (forall k, In k (steps_upto j) ->
       In (ray_square (1, -1) c1 k)
         (get_empty_squares (board bishop_game))) /\
    ~ In (ray_square (1, -1) c1 (Z.of_nat (S j)))
        (get_empty_squares (board bishop_game)).
Proof.
  assert (H : get_ranged_piece_psuedo_legal_moves_in_direction (1, -1) c1
                (get_empty_squares (board bishop_game))
                (get_squares_with_pieces (board bishop_game) BLACK)
              = Ok [Move2 c1 (mkSquare 1 1); Move2 c1 (mkSquare 2 0)])
    by (vm_compute; reflexivity).
  split; [exact H |].
  destruct (@ray_stops_at_first_obstacle _ _ _ _ _ H) as (j & Hin & Hout & _).
  exists j; split; assumption.
Defined.

(** The king move e1-d1 of [open_file_game] starts on a white square and
    ends on an empty one. *)
Lemma legal_moves_origin_witness :
  get_legal_moves open_file_game = Ok (legal_of open_file_game) /\
  In (Move2 e1 (mkSquare 0 3)) (legal_of open_file_game) /\
  In e1 (get_squares_with_pieces (board open_file_game) WHITE).
Proof.
  assert (H : get_legal_moves open_file_game = Ok (legal_of open_file_game))
    by (vm_compute; reflexivity).
  assert (Hm : In (Move2 e1 (mkSquare 0 3)) (legal_of open_file_game))
    by (vm_compute; tauto).
  split; [exact H |]. split; [exact Hm |].
  destruct (@legal_moves_origin CBoard _ _ open_file_game _ _ H Hm)
    as [[[C | C] _] | (_ & _ & Hstart & _)].
  - discriminate C.
  - discriminate C.
  - exact Hstart.
Defined.

(** The bishop move c1-a3 passes over the empty square b2. *)
Lemma sliding_piece_never_jumps_witness :
  get_psuedo_legal_moves_for_piece white_bishop c1 (board bishop_game) None
    = Ok (moves_of white_bishop c1 (board bishop_game) None) /\
  In (Move2 c1 (mkSquare 2 0))
    (moves_of white_bishop c1 (board bishop_game) None) /\
  exists (d : Z * Z) (k : Z),
    In d bishop_directions /\ 1 <= k /\
    mkSquare 2 0 = ray_square d c1 k /\
    forall i, 1 <= i < k ->
      In (ray_square d c1 i) (get_empty_squares (board bishop_game)).
Proof.
  assert (H : get_psuedo_legal_moves_for_piece white_bishop c1
                (board bishop_game) None
              = Ok (moves_of white_bishop c1 (board bishop_game) None))
    by (vm_compute; reflexivity).
  assert (Hm : In (Move2 c1 (mkSquare 2 0))
                 (moves_of white_bishop c1 (board bishop_game) None))
    by (vm_compute; tauto).
  split; [exact H |]. split; [exact Hm |].
  apply (@sliding_piece_never_jumps CBoard _ white_bishop c1
           (board bishop_game) None _ _ H Hm).
  discriminate.
Defined.

(** The pawn on b7 captures on c8, a square of Black. *)
Lemma pawn_pushes_and_captures_witness :
  get_psuedo_legal_moves_for_piece white_pawn b7 (board promotion_game) None
    = Ok (moves_of white_pawn b7 (board promotion_game) None) /\
  In (mkMove b7 (mkSquare 7 2) PAWN_PROMOTION)
    (moves_of white_pawn b7 (board promotion_game) None) /\
  (In (mkSquare 7 2) (get_squares_with_pieces (board promotion_game) BLACK)
   \/ @None Square = Some (mkSquare 7 2)).
Proof.
  assert (H : get_psuedo_legal_moves_for_piece white_pawn b7
                (board promotion_game) None
              = Ok (moves_of white_pawn b7 (board promotion_game) None))
    by (vm_compute; reflexivity).
  assert (Hm : In (mkMove b7 (mkSquare 7 2) PAWN_PROMOTION)
                 (moves_of white_pawn b7 (board promotion_game) None))
    by (vm_compute; tauto).
  split; [exact H |]. split; [exact Hm |].
  destruct (@pawn_pushes_and_captures CBoard _ WHITE b7 (board promotion_game)
              None _ _ H Hm) as (_ & Hcapture & _).
  apply Hcapture. discriminate.
Defined.

(** The knight on b1 goes to c3 in the starting position. *)
Lemma knight_moves_characterised_witness :
  get_psuedo_legal_moves_for_piece white_knight b1 starting_board None
    = Ok (moves_of white_knight b1 starting_board None) /\
  In (Move2 b1 (mkSquare 2 2)) (moves_of white_knight b1 starting_board None).
Proof.
  assert (H : get_psuedo_legal_moves_for_piece white_knight b1 starting_board
                None
              = Ok (moves_of white_knight b1 starting_board None))
    by (vm_compute; reflexivity).
  split; [exact H |].
  apply (@knight_moves_characterised CBoard _ WHITE b1 starting_board None
           _ H).
  split; [reflexivity |]. split; [reflexivity |].
  split; [| reflexivity].
  left. apply mem_In. vm_compute; reflexivity.
Defined.

(** Every move of the lone king goes to a neighbouring square. *)
Lemma king_moves_characterised_witness :
  get_psuedo_legal_moves_for_piece (mkPiece WHITE KING) e1
    (board lone_king_game) None
    = Ok (moves_of (mkPiece WHITE KING) e1 (board lone_king_game) None) /\
  forall m,
    In m (moves_of (mkPiece WHITE KING) e1 (board lone_king_game) None) ->
    Z.max (Z.abs (row (end_ m) - row e1))
          (Z.abs (column (end_ m) - column e1)) = 1.
Proof.
  assert (H : get_psuedo_legal_moves_for_piece (mkPiece WHITE KING) e1
                (board lone_king_game) None
              = Ok (moves_of (mkPiece WHITE KING) e1 (board lone_king_game)
                      None))
    by (vm_compute; reflexivity).
  split; [exact H |].
  intros m Hm.
  apply (@king_moves_characterised CBoard _ WHITE e1 (board lone_king_game)
           None _ H) in Hm.
  exact (proj2 (proj2 (proj2 Hm))).
Defined.

(** An en-passant target on the empty square a3 leaves the bishop's moves
    as they are. *)
Lemma en_passant_only_matters_to_pawns_witness :
  type white_bishop <> PAWN /\
  In (mkSquare 2 0) (get_empty_squares (board bishop_game)) /\
  get_psuedo_legal_moves_for_piece white_bishop c1 (board bishop_game)
    (Some (mkSquare 2 0)) =
  get_psuedo_legal_moves_for_piece white_bishop c1 (board bishop_game) None.
Proof.
  assert (Hp : type white_bishop <> PAWN) by discriminate.
  assert (He : In (mkSquare 2 0) (get_empty_squares (board bishop_game)))
    by (apply mem_In; vm_compute; reflexivity).
  split; [exact Hp |]. split; [exact He |].
  exact (@en_passant_only_matters_to_pawns CBoard _ white_bishop c1
           (mkSquare 2 0) (board bishop_game) Hp He).
Defined.

(** With white kings on a1 and e1, [is_check] answers for e1 and misses the
    rook's attack on a1. *)
Lemma is_check_uses_last_king_witness :
  In (mkSquare 0 0) (attacked_of two_kings_board BLACK) /\
  is_check two_kings_board WHITE = Ok false.
Proof.
  split; [vm_compute; tauto |].
  assert (Hl : get_squares_with_pieces two_kings_board WHITE
               = [mkSquare 0 0] ++ e1 :: [])
    by (vm_compute; reflexivity).
  assert (Hk : getitem two_kings_board e1 = Some (mkPiece WHITE KING))
    by reflexivity.
  assert (Ht : type (mkPiece WHITE KING) = KING) by reflexivity.
  assert (Hafter : forall sq q, In sq (@nil Square) ->
                     getitem two_kings_board sq = Some q -> type q <> KING)
    by (intros sq q []).
  assert (Hatt : get_attacked_squares two_kings_board (opposing_color WHITE)
                 = Ok (attacked_of two_kings_board BLACK))
    by (vm_compute; reflexivity).
  exact (@is_check_uses_last_king CBoard _ two_kings_board WHITE _ _ _ _ _
           Hl Hk Ht Hafter Hatt).
Defined.

(** The win of White in [mate_game] tells that Black is to move, without a
    legal move and in check. *)
Lemma game_result_inversion_witness :
  get_game_result mate_game = Ok (Some WHITE_WIN) /\
  turn mate_game = BLACK /\
  get_legal_moves mate_game = Ok [] /\
  is_check (board mate_game) (turn mate_game) = Ok true.
Proof.
  assert (H : get_game_result mate_game = Ok (Some WHITE_WIN))
    by (vm_compute; reflexivity).
  split; [exact H |].
  exact (@game_result_inversion CBoard _ _ mate_game _ H).
Defined.

(** Every square that White attacks in [promotion_game] is on the board. *)
Lemma attacked_squares_are_valid_witness :
  get_attacked_squares (board promotion_game) WHITE
    = Ok (attacked_of (board promotion_game) WHITE) /\
  forall x, In x (attacked_of (board promotion_game) WHITE) ->
            is_valid x = true.
Proof.
  assert (H : get_attacked_squares (board promotion_game) WHITE
              = Ok (attacked_of (board promotion_game) WHITE))
    by (vm_compute; reflexivity).
  split; [exact H |].
  exact (@attacked_squares_are_valid CBoard _ (board promotion_game) WHITE _
           (c_empty_squares_valid (board promotion_game))
           (c_piece_squares_valid (board promotion_game)) H).
Defined.

(** The capture b7xc8 lands on a square that White attacks. *)
Lemma pawn_captures_are_attacks_witness :
  getitem (board promotion_game) b7 = Some white_pawn /\
  In (mkMove b7 (mkSquare 7 2) PAWN_PROMOTION)
    (moves_of white_pawn b7 (board promotion_game) None) /\
  exists attacked,
    get_attacked_squares (board promotion_game) WHITE = Ok attacked /\
    In (mkSquare 7 2) attacked.
Proof.
  assert (Hget : getitem (board promotion_game) b7 = Some white_pawn)
    by reflexivity.
  assert (H : get_psuedo_legal_moves_for_piece white_pawn b7
                (board promotion_game) None
              = Ok (moves_of white_pawn b7 (board promotion_game) None))
    by (vm_compute; reflexivity).
  assert (Hm : In (mkMove b7 (mkSquare 7 2) PAWN_PROMOTION)
                 (moves_of white_pawn b7 (board promotion_game) None))
    by (vm_compute; tauto).
  split; [exact Hget |]. split; [exact Hm |].
  apply (@pawn_captures_are_attacks CBoard _ c_board_contract
           (board promotion_game) WHITE b7 None _ _ Hget H Hm);
    [discriminate | reflexivity].
Defined.

(** Three missing pieces: the length test answers before any entry is
    read. *)
Lemma is_insufficient_material_table_witness :
  (2 < length [@None Piece; None; None])%nat /\
  is_insufficient_material [None; None; None] = Ok false.
Proof.
  assert (H : (2 < length [@None Piece; None; None])%nat) by (simpl; lia).
  split; [exact H |].
  exact (proj1 is_insufficient_material_table _ H).
Defined.

(** Two ways to write the square b3 hash alike. *)
Lemma square_eq_and_hash_witness :
  square_eqb (mkSquare 2 1) (mkSquare (1 + 1) (2 - 1)) = true /\
  square_hash sample_hash (mkSquare 2 1)
  = square_hash sample_hash (mkSquare (1 + 1) (2 - 1)).
Proof.
  assert (H : square_eqb (mkSquare 2 1) (mkSquare (1 + 1) (2 - 1)) = true)
    by reflexivity.
  split; [exact H |].
  exact (proj2 (proj2 (proj2 (proj2 square_eq_and_hash))) sample_hash _ _ H).
Defined.

(** The ray of the bishop on c1 towards a3 has two moves. *)
Lemma ray_has_at_most_seven_moves_witness :
  get_ranged_piece_psuedo_legal_moves_in_direction (1, -1) c1
    (get_empty_squares (board bishop_game))
    (get_squares_with_pieces (board bishop_game) BLACK)
  = Ok [Move2 c1 (mkSquare 1 1); Move2 c1 (mkSquare 2 0)] /\
  (length [Move2 c1 (mkSquare 1 1); Move2 c1 (mkSquare 2 0)] <= 7)%nat.
Proof.
  assert (H : get_ranged_piece_psuedo_legal_moves_in_direction (1, -1) c1
                (get_empty_squares (board bishop_game))
                (get_squares_with_pieces (board bishop_game) BLACK)
              = Ok [Move2 c1 (mkSquare 1 1); Move2 c1 (mkSquare 2 0)])
    by (vm_compute; reflexivity).
  split; [exact H |].
  apply (@ray_has_at_most_seven_moves _ _ _ _ _ H).
  - discriminate.
  - reflexivity.
  - apply c_empty_squares_valid.
  - apply c_piece_squares_valid.
Defined.

(** No move of the bishop on c1 ends on c1. *)
Lemma no_move_to_the_start_square_witness :
  get_pawn_direction (Board := CBoard) (color white_bishop) <> 0 /\
  forall m,
    In m (moves_of white_bishop c1 (board bishop_game) None) ->
    end_ m <> c1.
Proof.
  assert (Hd : get_pawn_direction (Board := CBoard) (color white_bishop) <> 0)
    by discriminate.
  assert (H : get_psuedo_legal_moves_for_piece white_bishop c1
                (board bishop_game) None
              = Ok (moves_of white_bishop c1 (board bishop_game) None))
    by (vm_compute; reflexivity).
  split; [exact Hd |].
  intros m Hm.
  exact (@no_move_to_the_start_square CBoard _ white_bishop c1
           (board bishop_game) None _ m Hd H Hm).
Defined.

